(** * node-darts: the native binding of a double-array trie dictionary

    A shallow embedding of the N-API glue layer ([bindings.cpp],
    [builder.cpp], [dictionary.cpp]) together with a model of the
    double-array core it drives. *)

From Stdlib Require Import ZArith String Ascii List Lia OrdersEx.
From stdpp Require Import base option list gmap strings sorting.

Local Open Scope Z_scope.

(** * Machine integers *)

Module Int.

(** [uint32_t]: conversion keeps the value modulo 2^32. *)
Definition to_uint32 (z : Z) : Z := z mod 2 ^ 32.

(** [int] / [int32_t]: two's complement wrap-around. *)
Definition to_int32 (z : Z) : Z := (z + 2 ^ 31) mod 2 ^ 32 - 2 ^ 31.

Definition INT32_MAX : Z := 2 ^ 31 - 1.

End Int.

(** * Byte strings

    A [std::string] is a sequence of bytes; [string] is a sequence of
    8-bit [ascii] characters.  [operator<] on [std::string] is the
    lexicographic order on unsigned bytes. *)

Definition byte_val (c : ascii) : Z := Z.of_N (N_of_ascii c).

Definition string_lt (a b : string) : Prop := String_as_OT.compare a b = Lt.
Definition string_le (a b : string) : Prop := String_as_OT.compare a b <> Gt.

Definition string_ltb (a b : string) : bool :=
  match String_as_OT.compare a b with Lt => true | _ => false end.

#[global] Instance string_le_dec : RelDecision string_le.
Proof.
  intros a b. unfold string_le.
  destruct (String_as_OT.compare a b);
    [left | left | right]; congruence.
Defined.

(** [std::string::c_str()] read as a C string: the bytes before the
    first NUL. *)
Fixpoint c_str (s : string) : string :=
  match s with
  | EmptyString => EmptyString
  | String c s' => if (byte_val c =? 0) then EmptyString else String c (c_str s')
  end.

Fixpoint nul_free (s : string) : Prop :=
  match s with
  | EmptyString => True
  | String c s' => byte_val c <> 0 /\ nul_free s'
  end.

(** [key + n]: the C string that starts [n] bytes into [s]. *)
Fixpoint str_drop (n : nat) (s : string) : string :=
  match n, s with
  | O, _ => s
  | S n', EmptyString => EmptyString
  | S n', String _ s' => str_drop n' s'
  end.

(** * The double-array core ([third_party/darts/darts.h]) *)

Module Darts.

(** Modelled from the spec: darts.h is not among the sources; a unit of
    the packed array holds a signed [base] offset and a [check]
    back-reference (spec section 3). *)
Record DAUnit : Type := mkUnit { base : Z; check : Z }.

#[global] Instance DAUnit_eq_dec : EqDecision DAUnit.
Proof. solve_decision. Defined.

(** Modelled from the spec: the packed array of darts.h, an ordered
    sequence of units; unit 0 is the root. *)
Abbreviation PackedArray := (list DAUnit).

(** Modelled from the spec: an unused slot of the array of darts.h has
    [check == 0] (and no offset). *)
Definition unused_unit : DAUnit := mkUnit 0 0.

(** Modelled from the spec: reading a unit of the array of darts.h; an
    index outside the array yields nothing. *)
Definition unit_at (a : PackedArray) (t : Z) : option DAUnit :=
  if (0 <=? t) && (t <? Z.of_nat (length a)) then a !! Z.to_nat t else None.

(** Modelled from the spec: one transition of darts.h, from node [s] on
    byte [c] to [t = base[s] + c], real only when [check[t] == s]. *)
Definition step (a : PackedArray) (s : Z) (c : Z) : option Z :=
  match unit_at a s with
  | None => None
  | Some us =>
      let t := base us + c in
      match unit_at a t with
      | None => None
      | Some ut => if check ut =? s then Some t else None
      end
  end.

(** Modelled from the spec: the terminal check of darts.h; node [s]
    accepts a key when the sentinel transition (byte 0) leads to a unit
    with a negated [base], which encodes the value as [-base - 1]. *)
Definition terminal_value (a : PackedArray) (s : Z) : option Z :=
  match step a s 0 with
  | None => None
  | Some t =>
      match unit_at a t with
      | None => None
      | Some u => if base u <? 0 then Some (- base u - 1) else None
      end
  end.

(** Modelled from the spec: the byte-by-byte walk of darts.h from node
    [s]; the first byte without a valid transition aborts it. *)
Fixpoint walk (a : PackedArray) (s : Z) (key : string) : option Z :=
  match key with
  | EmptyString => Some s
  | String c key' =>
      match step a s (byte_val c) with
      | None => None
      | Some t => walk a t key'
      end
  end.

(** Modelled from the spec: what a search of darts.h yields, the found
    value or the NotFound marker. *)
Inductive SearchResult : Type :=
| Found (v : Z)
| NotFound.

(** Modelled from the spec: [exactMatchSearch] of darts.h (spec section
    4.2): walk all bytes from the root, then require the terminal
    check. *)
Definition exactMatchSearch (a : PackedArray) (key : string) : SearchResult :=
  match walk a 0 key with
  | None => NotFound
  | Some s =>
      match terminal_value a s with
      | Some v => Found v
      | None => NotFound
      end
  end.

(** Modelled from the spec: [commonPrefixSearch] of darts.h (spec
    section 4.2): one left-to-right walk; at every visited node the
    terminal check is attempted and a decoded value appended, unless
    the count already reached [maxResults], where enumeration stops. *)
Fixpoint commonPrefixSearch_from (a : PackedArray) (s : Z) (key : string)
    (maxResults : nat) (acc : list Z) : list Z :=
  match terminal_value a s with
  | Some v =>
      if (length acc <? maxResults)%nat then
        let acc' := acc ++ [v] in
        match key with
        | EmptyString => acc'
        | String c key' =>
            match step a s (byte_val c) with
            | None => acc'
            | Some t => commonPrefixSearch_from a t key' maxResults acc'
            end
        end
      else acc
  | None =>
      match key with
      | EmptyString => acc
      | String c key' =>
          match step a s (byte_val c) with
          | None => acc
          | Some t => commonPrefixSearch_from a t key' maxResults acc
          end
      end
  end.

(** Modelled from the spec: [commonPrefixSearch] of darts.h starts at the
    root with no result. *)
Definition commonPrefixSearch (a : PackedArray) (key : string)
    (maxResults : nat) : list Z :=
  commonPrefixSearch_from a 0 key maxResults [].

(** Modelled from the spec: the outcome tag of one [traverse] step of
    darts.h: ordinary transition, terminal with value, or no such
    transition. *)
Inductive Outcome : Type :=
| Ordinary
| Terminal (v : Z)
| NoTransition.

(** Modelled from the spec: [traverse] of darts.h (spec section 4.2), a
    single step: from [(nodePos, keyPos)] it consumes exactly one byte
    of [key] and returns the outcome with the new node and key
    positions; without a transition the caller's state is kept. *)
Definition traverse (a : PackedArray) (key : string) (nodePos keyPos : Z)
    : Outcome * Z * Z :=
  match (if 0 <=? keyPos then String.get (Z.to_nat keyPos) key else None) with
  | None => (NoTransition, nodePos, keyPos)
  | Some c =>
      match step a nodePos (byte_val c) with
      | None => (NoTransition, nodePos, keyPos)
      | Some t =>
          (match terminal_value a t with
           | Some v => Terminal v
           | None => Ordinary
           end, t, keyPos + 1)
      end
  end.

(** Modelled from the spec: [size] of darts.h, the unit count. *)
Definition size (a : PackedArray) : Z := Z.of_nat (length a).

(** ** Construction *)

(** Modelled from the spec: the bookkeeping of the construction of
    darts.h: the units written so far, the slots already given to some
    node, and the current array length. *)
Record Builder : Type := mkBuilder {
  units : gmap Z DAUnit;
  used : gset Z;
  len : Z
}.

(** Modelled from the spec: the construction of darts.h gives slot [t]
    to a node; the array grows to hold it. *)
Definition reserve (bs : Builder) (t : Z) : Builder :=
  mkBuilder (units bs) ({[ t ]} ∪ used bs) (Z.max (len bs) (t + 1)).

(** Modelled from the spec: the construction of darts.h writes unit
    [t]. *)
Definition write (bs : Builder) (t : Z) (u : DAUnit) : Builder :=
  mkBuilder (<[ t := u ]> (units bs)) (used bs) (len bs).

(** Modelled from the spec: in the construction of darts.h, the code of
    the next transition of a key suffix: the sentinel 0 at the end of
    the key, its first byte otherwise. *)
Definition code_of (k : string) : Z :=
  match k with
  | EmptyString => 0
  | String c _ => byte_val c
  end.

(** Modelled from the spec: step 1 of the construction of darts.h, the
    distinct next bytes of a key range at the current depth. *)
Definition next_bytes (entries : list (string * Z)) : list Z :=
  remove_dups (map (fun e => code_of (fst e)) entries).

(** Modelled from the spec: in the construction of darts.h, the keys of
    the range that continue with byte [c], without that byte. *)
Definition child_entry (c : Z) (e : string * Z) : option (string * Z) :=
  match fst e with
  | EmptyString => None
  | String c' k' => if byte_val c' =? c then Some (k', snd e) else None
  end.

(** Modelled from the spec: in the construction of darts.h, the key
    range of the child reached by byte [c]. *)
Definition children_of (c : Z) (entries : list (string * Z)) : list (string * Z) :=
  omap (child_entry c) entries.

(** Modelled from the spec: in the construction of darts.h, the value of
    the key that ends at the current node, if there is one. *)
Definition is_end (e : string * Z) : bool :=
  match fst e with EmptyString => true | _ => false end.

(** Modelled from the spec: step 4 of the construction of darts.h, the
    value stored at a key's terminal depth. *)
Definition terminal_of (entries : list (string * Z)) : option Z :=
  snd <$> List.find is_end entries.

(** Modelled from the spec: step 2 of the construction of darts.h: at
    offset [b] every child lands on a slot not yet given away. *)
Definition fits (bs : Builder) (codes : list Z) (b : Z) : bool :=
  forallb (fun c => bool_decide (b + c ∉ used bs)) codes.

(** Modelled from the spec: step 2 of the construction of darts.h, the
    smallest offset (from 1) at which every child lands on an unused
    slot; the end of the array always qualifies. *)
Definition find_base (bs : Builder) (codes : list Z) : Z :=
  default (Z.max 1 (len bs))
          (List.find (fits bs codes)
                     (map Z.of_nat (seq 1 (Z.to_nat (len bs))))).

(** Modelled from the spec: steps 3-4 of the construction of darts.h for
    one child of node [s] (offset [b]): the sentinel child holds the
    value, sign-encoded; any other child is placed by [rec] and then
    written with its own offset. *)
Definition place (rec : Builder -> Z -> list (string * Z) -> Builder * Z)
    (entries : list (string * Z)) (b s : Z) (acc : Builder) (c : Z) : Builder :=
  if c =? 0 then
    match terminal_of entries with
    | Some v => write acc (b + c) (mkUnit (- v - 1) s)
    | None => acc
    end
  else
    let '(acc', bc) := rec acc (b + c) (children_of c entries) in
    write acc' (b + c) (mkUnit bc s).

(** Modelled from the spec: steps 1-5 of the construction of darts.h.
    [insert] places the children of node [s], whose keys' remaining
    suffixes are [entries], and returns the offset chosen for [s]; the
    fuel bounds the depth of the trie. *)
Fixpoint insert (fuel : nat) (bs : Builder) (s : Z)
    (entries : list (string * Z)) : Builder * Z :=
  match fuel with
  | O => (bs, 0)
  | S f =>
      let codes := next_bytes entries in
      let b := find_base bs codes in
      let bs1 := foldr (fun c acc => reserve acc (b + c)) bs codes in
      (fold_left (place (insert f) entries b s) codes bs1, b)
  end.

(** Modelled from the spec: the array of darts.h as frozen when [build]
    returns; a slot never written is an unused unit. *)
Definition freeze (bs : Builder) : PackedArray :=
  map (fun i => default unused_unit (units bs !! Z.of_nat i))
      (seq 0 (Z.to_nat (len bs))).

(** Modelled from the spec: the precondition of [build] of darts.h, keys
    strictly sorted as byte strings. *)
Fixpoint strictly_sorted (keys : list string) : bool :=
  match keys with
  | [] => true
  | a :: rest =>
      match rest with
      | [] => true
      | b :: _ => string_ltb a b && strictly_sorted rest
      end
  end.

(** Modelled from the spec: the numeric policy of darts.h, a value must
    lie in [0, INT32_MAX - 1]. *)
Definition value_ok (v : Z) : bool := (0 <=? v) && (v <=? Int.INT32_MAX - 1).

(** Modelled from the spec: the depth of the trie of darts.h is bounded
    by the longest key. *)
Definition max_key_length (keys : list string) : nat :=
  foldr (fun k m => Nat.max (String.length k) m) O keys.

(** Modelled from the spec: the memory ceiling of darts.h is left to the
    implementation; here every index must fit a signed 32-bit offset. *)
Definition memory_ceiling : Z := Int.INT32_MAX.

(** Modelled from the spec: what [build] of darts.h yields, the packed
    array or one of its two failures. *)
Inductive BuildResult : Type :=
| BuildOk (a : PackedArray)
| BuildError
| ValueRangeError.

(** Modelled from the spec: [build] of darts.h (spec section 4.1); it
    fails on an empty key list, on keys not strictly sorted, on an
    empty-string key, on a value outside [0, INT32_MAX - 1] and on an
    array beyond the memory ceiling. *)
Definition build (keys : list string) (values : list Z) : BuildResult :=
  match keys with
  | [] => BuildError
  | _ =>
      if negb (strictly_sorted keys) then BuildError
      else if existsb (fun k => String.eqb k EmptyString) keys then BuildError
      else if negb (forallb value_ok values) then ValueRangeError
      else
        let '(bs, b0) :=
          insert (S (max_key_length keys))
                 (reserve (mkBuilder ∅ ∅ 0) 0) 0 (zip keys values) in
        let bs' := write bs 0 (mkUnit b0 0) in
        if len bs' <=? memory_ceiling then BuildOk (freeze bs')
        else BuildError
  end.

End Darts.

(** Modelled from the spec: the binary codec of darts.h (spec section 6):
    a flat sequence of 8-byte little-endian units [{base: int32, check:
    uint32}], no header; the unit count is the file size over 8. *)
Module Codec.
Import Darts.

(** Modelled from the spec: the codec of darts.h writes a 32-bit field
    as four bytes, least significant first. *)
Definition le32 (z : Z) : list Z :=
  [z mod 256; (z / 256) mod 256; (z / 65536) mod 256; (z / 16777216) mod 256].

(** Modelled from the spec: the codec of darts.h reads a 32-bit field
    back from its four bytes. *)
Definition of_le32 (b0 b1 b2 b3 : Z) : Z :=
  b0 + 256 * b1 + 65536 * b2 + 16777216 * b3.

(** Modelled from the spec: the codec of darts.h writes a unit as its
    [base] and then its [check]. *)
Definition encode_unit (u : DAUnit) : list Z :=
  le32 (Int.to_uint32 (base u)) ++ le32 (Int.to_uint32 (check u)).

(** Modelled from the spec: [save] of darts.h writes the units one after
    the other, without header. *)
Definition encode (a : PackedArray) : list Z := flat_map encode_unit a.

(** Modelled from the spec: what [load] of darts.h yields, the array or
    one of its two failures. *)
Inductive LoadResult : Type :=
| LoadOk (a : PackedArray)
| IOError
| CorruptFileError.

(** Modelled from the spec: [load] of darts.h reads units of 8 bytes and
    fails with [CorruptFileError] when bytes are left over. *)
Fixpoint decode (bytes : list Z) : LoadResult :=
  match bytes with
  | [] => LoadOk []
  | b0 :: b1 :: b2 :: b3 :: c0 :: c1 :: c2 :: c3 :: rest =>
      match decode rest with
      | LoadOk a =>
          LoadOk (mkUnit (Int.to_int32 (of_le32 b0 b1 b2 b3)) (of_le32 c0 c1 c2 c3) :: a)
      | e => e
      end
  | _ => CorruptFileError
  end.

End Codec.

(** * The binding layer *)

(** ** JavaScript values and call results *)

(** The object handed to the [traverse] callback. *)
Record ResultObj : Type := mkResultObj { node : Z; key : Z; value : Z }.

(** JavaScript values as the binding tells them apart.  A number is
    modelled by its integer value, a string by its UTF-8 bytes, and a
    function by what it returns for a result object: what a callback
    does besides is not modelled. *)
#[warnings="-register-all"]
Inductive JsValue : Type :=
| JUndefined
| JNull
| JBoolean (b : bool)
| JNumber (z : Z)
| JString (s : string)
| JArray (elems : list JsValue)
| JFunction (f : ResultObj -> JsValue).

Inductive ErrorKind : Type := TypeError | Error.

(** What a native function leaves behind: a pending JavaScript exception,
    if one was thrown, and the value it returned. *)
Record Completion : Type := mkCompletion {
  pending : option (ErrorKind * string);
  returned : JsValue
}.

Definition ret (v : JsValue) : Completion := mkCompletion None v.
Definition throw (k : ErrorKind) (msg : string) (v : JsValue) : Completion :=
  mkCompletion (Some (k, msg)) v.

Definition Uint32Value (z : Z) : Z := Int.to_uint32 z.
Definition Int32Value (z : Z) : Z := Int.to_int32 z.

(** ** The process state *)

(** A [DartsDict*] is the address of a heap object. *)
Abbreviation addr := nat.

Record World : Type := mkWorld {
  heap : gmap addr Darts.PackedArray;   (* the live [DartsDict] objects *)
  next_addr : addr;                     (* allocation counter of [new] *)
  freed : list addr;                    (* the objects given to [delete] *)
  g_dictionaries : list (option addr);  (* [nullptr] is [None] *)
  files : gmap string (list Z);         (* the file system *)
  unwritable : gset string;             (* paths that cannot be written *)
  callbacks : list ResultObj            (* callback invocations made *)
}.

Definition set_heap (w : World) (h : gmap addr Darts.PackedArray) : World :=
  mkWorld h (next_addr w) (freed w) (g_dictionaries w) (files w)
          (unwritable w) (callbacks w).

Definition set_g_dictionaries (w : World) (g : list (option addr)) : World :=
  mkWorld (heap w) (next_addr w) (freed w) g (files w) (unwritable w)
          (callbacks w).

(** [new DartsDict()] *)
Definition new_DartsDict (w : World) : World * addr :=
  (mkWorld (<[ next_addr w := [] ]> (heap w)) (S (next_addr w)) (freed w)
           (g_dictionaries w) (files w) (unwritable w) (callbacks w),
   next_addr w).

(** [delete dict] *)
Definition delete_DartsDict (w : World) (dict : addr) : World :=
  mkWorld (delete dict (heap w)) (next_addr w) (freed w ++ [dict])
          (g_dictionaries w) (files w) (unwritable w) (callbacks w).

Definition initial_world : World := mkWorld ∅ O [] [] ∅ ∅ [].

(** ** bindings.cpp

    Every exported function runs in a [try] block that turns a C++
    exception into a JavaScript error; the model has no C++ exceptions,
    so only the explicit [ThrowAsJavaScriptException] calls remain. *)

Definition GetDictionaryFromHandle (w : World) (handle : Z) : option addr :=
  if handle <? Z.of_nat (length (g_dictionaries w)) then
    match g_dictionaries w !! Z.to_nat handle with
    | Some (Some dict) => Some dict
    | _ => None
    end
  else None.

(** The loop [for (i = 0; i < size; i++) if (g[i] == nullptr)]. *)
Fixpoint find_empty_slot (g : list (option addr)) (i : nat) : option nat :=
  match g with
  | [] => None
  | None :: _ => Some i
  | Some _ :: g' => find_empty_slot g' (S i)
  end.

Definition AddDictionary (w : World) (dict : addr) : World * Z :=
  match find_empty_slot (g_dictionaries w) 0 with
  | Some i =>
      (set_g_dictionaries w (<[ i := Some dict ]> (g_dictionaries w)), Z.of_nat i)
  | None =>
      let g := g_dictionaries w ++ [Some dict] in
      (set_g_dictionaries w g, Int.to_uint32 (Z.of_nat (length g) - 1))
  end.

Definition RemoveDictionary (w : World) (handle : Z) : World :=
  if handle <? Z.of_nat (length (g_dictionaries w)) then
    match g_dictionaries w !! Z.to_nat handle with
    | Some (Some dict) =>
        let w1 := delete_DartsDict w dict in
        set_g_dictionaries w1 (<[ Z.to_nat handle := None ]> (g_dictionaries w1))
    | _ => w
    end
  else w.

(** ** dictionary.cpp *)

Definition CreateDictionary (w : World) (info : list JsValue) : World * Completion :=
  let '(w1, dict) := new_DartsDict w in
  let '(w2, handle) := AddDictionary w1 dict in
  (w2, ret (JNumber handle)).

Definition DestroyDictionary (w : World) (info : list JsValue) : World * Completion :=
  match info with
  | JNumber n :: _ =>
      let handle := Uint32Value n in
      (RemoveDictionary w handle, ret JUndefined)
  | _ => (w, throw TypeError "Number expected" JNull)
  end.

(** Modelled from the spec: [open] of darts.h; it reads the file and
    replaces the array, and leaves the instance alone on failure. *)
Definition darts_open (w : World) (path : string) : Codec.LoadResult :=
  match files w !! path with
  | None => Codec.IOError
  | Some bytes => Codec.decode bytes
  end.

(** Modelled from the spec: [save] of darts.h; it writes the encoded
    array and fails only on a file-system failure. *)
Definition darts_save (w : World) (a : Darts.PackedArray) (path : string) : option World :=
  if bool_decide (path ∈ unwritable w) then None
  else Some (mkWorld (heap w) (next_addr w) (freed w) (g_dictionaries w)
                     (<[ path := Codec.encode a ]> (files w)) (unwritable w)
                     (callbacks w)).

(** The object behind a live pointer; a dangling pointer reads as an
    instance without array. *)
Definition deref (w : World) (dict : addr) : Darts.PackedArray :=
  default [] (heap w !! dict).

Definition LoadDictionary (w : World) (info : list JsValue) : World * Completion :=
  match info with
  | JNumber n :: JString filePath :: _ =>
      let handle := Uint32Value n in
      match GetDictionaryFromHandle w handle with
      | None => (w, throw Error "Invalid dictionary handle" JNull)
      | Some dict =>
          match darts_open w (c_str filePath) with
          | Codec.LoadOk a =>
              (set_heap w (<[ dict := a ]> (heap w)), ret (JBoolean true))
          | _ => (w, throw Error "Failed to load dictionary" (JBoolean false))
          end
      end
  | _ => (w, throw TypeError "Arguments: (handle: number, filePath: string) expected" JNull)
  end.

Definition SaveDictionary (w : World) (info : list JsValue) : World * Completion :=
  match info with
  | JNumber n :: JString filePath :: _ =>
      let handle := Uint32Value n in
      match GetDictionaryFromHandle w handle with
      | None => (w, throw Error "Invalid dictionary handle" JNull)
      | Some dict =>
          match darts_save w (deref w dict) (c_str filePath) with
          | Some w' => (w', ret (JBoolean true))
          | None => (w, throw Error "Failed to save dictionary" (JBoolean false))
          end
      end
  | _ => (w, throw TypeError "Arguments: (handle: number, filePath: string) expected" JNull)
  end.

(** Modelled from the spec: the [int] that [exactMatchSearch<int>] of
    darts.h returns; the value when found, a negative marker otherwise. *)
Definition search_code (r : Darts.SearchResult) : Z :=
  match r with
  | Darts.Found v => v
  | Darts.NotFound => -1
  end.

Definition ExactMatchSearch (w : World) (info : list JsValue) : World * Completion :=
  match info with
  | JNumber n :: JString key :: _ =>
      let handle := Uint32Value n in
      match GetDictionaryFromHandle w handle with
      | None => (w, throw Error "Invalid dictionary handle" JNull)
      | Some dict =>
          let result := search_code (Darts.exactMatchSearch (deref w dict) (c_str key)) in
          (w, ret (JNumber result))
      end
  | _ => (w, throw TypeError "Arguments: (handle: number, key: string) expected" JNull)
  end.

Definition MAX_RESULTS : nat := 100.

Definition CommonPrefixSearch (w : World) (info : list JsValue) : World * Completion :=
  match info with
  | JNumber n :: JString key :: _ =>
      let handle := Uint32Value n in
      match GetDictionaryFromHandle w handle with
      | None => (w, throw Error "Invalid dictionary handle" JNull)
      | Some dict =>
          let results := Darts.commonPrefixSearch (deref w dict) (c_str key) MAX_RESULTS in
          (w, ret (JArray (map JNumber results)))
      end
  | _ => (w, throw TypeError "Arguments: (handle: number, key: string) expected" JNull)
  end.

(** Modelled from the spec: the [int] that [traverse] of darts.h returns;
    the value at a terminal, negative markers otherwise. *)
Definition outcome_code (o : Darts.Outcome) : Z :=
  match o with
  | Darts.Terminal v => v
  | Darts.Ordinary => -1
  | Darts.NoTransition => -2
  end.

Definition is_false (v : JsValue) : bool :=
  match v with
  | JBoolean false => true
  | _ => false
  end.

(** The [while (key_pos < key.length() && continue_traverse)] loop; every
    turn raises [key_pos], so [key.length()] turns are enough. *)
Fixpoint traverse_loop (fuel : nat) (dict : Darts.PackedArray) (key : string)
    (callback : ResultObj -> JsValue) (node_pos key_pos : Z)
    (log : list ResultObj) : list ResultObj :=
  match fuel with
  | O => log
  | S fuel' =>
      if key_pos <? Z.of_nat (String.length key) then
        let '(o, node_pos', key_pos') :=
          Darts.traverse dict (c_str (str_drop (Z.to_nat key_pos) key))
                         node_pos key_pos in
        let result := outcome_code o in
        let result_obj :=
          mkResultObj (Int.to_int32 node_pos') (Int.to_int32 key_pos') result in
        let callback_result := callback result_obj in
        let continue_traverse :=
          negb (is_false callback_result) && negb (result <? 0) in
        if continue_traverse then
          traverse_loop fuel' dict key callback node_pos' (key_pos' + 1)
                        (log ++ [result_obj])
        else log ++ [result_obj]
      else log
  end.

Definition Traverse (w : World) (info : list JsValue) : World * Completion :=
  match info with
  | JNumber n :: JString key :: JFunction callback :: _ =>
      let handle := Uint32Value n in
      match GetDictionaryFromHandle w handle with
      | None => (w, throw Error "Invalid dictionary handle" JNull)
      | Some dict =>
          let log :=
            traverse_loop (String.length key) (deref w dict) key callback 0 0
                          (callbacks w) in
          (mkWorld (heap w) (next_addr w) (freed w) (g_dictionaries w)
                   (files w) (unwritable w) log,
           ret JUndefined)
      end
  | _ => (w, throw TypeError "Arguments: (handle: number, key: string, callback: function) expected" JNull)
  end.

Definition Size (w : World) (info : list JsValue) : World * Completion :=
  match info with
  | JNumber n :: _ =>
      let handle := Uint32Value n in
      match GetDictionaryFromHandle w handle with
      | None => (w, throw Error "Invalid dictionary handle" JNull)
      | Some dict => (w, ret (JNumber (Darts.size (deref w dict))))
      end
  | _ => (w, throw TypeError "Number expected" JNull)
  end.

(** ** builder.cpp *)

(** The loop that copies the keys: the first element that is not a
    string stops it. *)
Fixpoint strings_of (l : list JsValue) : option (list string) :=
  match l with
  | [] => Some []
  | JString s :: l' =>
      match strings_of l' with
      | Some ss => Some (s :: ss)
      | None => None
      end
  | _ => None
  end.

(** The loop that copies the values through [Int32Value()]. *)
Fixpoint int32s_of (l : list JsValue) : option (list Z) :=
  match l with
  | [] => Some []
  | JNumber z :: l' =>
      match int32s_of l' with
      | Some zs => Some (Int32Value z :: zs)
      | None => None
      end
  | _ => None
  end.

(** [std::sort(keys.begin(), keys.end())] *)
Definition sort_keys (keys : list string) : list string :=
  merge_sort string_le keys.

(** [std::unique] followed by [erase]: of each run of equal neighbours
    the first stays. *)
Fixpoint unique (keys : list string) : list string :=
  match keys with
  | [] => []
  | a :: rest =>
      match rest with
      | [] => [a]
      | b :: _ => if String.eqb a b then unique rest else a :: unique rest
      end
  end.

(** The keys the builder uses, in the order it uses them. *)
Definition normalized_keys (keys : list string) : list string :=
  unique (sort_keys keys).

(** [values[i] = i] for [i < num_keys], an [uint32_t] stored in an [int]. *)
Definition index_values (num_keys : nat) : list Z :=
  map (fun i => Int.to_int32 (Z.of_nat i)) (seq 0 num_keys).

Definition Build (w : World) (info : list JsValue) : World * Completion :=
  match info with
  | JArray keys_array :: rest =>
      match keys_array with
      | [] => (w, throw Error "Empty keys array" JNull)
      | _ =>
          match strings_of keys_array with
          | None => (w, throw TypeError "All keys must be strings" JNull)
          | Some raw_keys =>
              let keys := normalized_keys raw_keys in
              let num_keys := length keys in
              let key_ptrs := map c_str keys in
              let values_or_error :=
                match rest with
                | JArray values_array :: _ =>
                    if negb (length values_array =? num_keys)%nat then
                      inl (throw Error "Values array length must match keys array length" JNull)
                    else
                      match int32s_of values_array with
                      | None => inl (throw TypeError "All values must be numbers" JNull)
                      | Some values => inr values
                      end
                | _ => inr (index_values num_keys)
                end in
              match values_or_error with
              | inl c => (w, c)
              | inr values =>
                  let '(w1, dict) := new_DartsDict w in
                  match Darts.build key_ptrs values with
                  | Darts.BuildOk a =>
                      let w2 := set_heap w1 (<[ dict := a ]> (heap w1)) in
                      let '(w3, handle) := AddDictionary w2 dict in
                      (w3, ret (JNumber handle))
                  | _ =>
                      (delete_DartsDict w1 dict,
                       throw Error "Failed to build dictionary" JNull)
                  end
              end
          end
      end
  | _ => (w, throw TypeError "First argument must be an array of keys" JNull)
  end.

Definition js_strings (l : list string) : JsValue := JArray (map JString l).
Definition js_numbers (l : list Z) : JsValue := JArray (map JNumber l).

(** [Init]: the functions the addon exports. *)
Definition exports : list (string * (World -> list JsValue -> World * Completion)) :=
  [ ("createDictionary"%string, CreateDictionary);
    ("destroyDictionary"%string, DestroyDictionary);
    ("loadDictionary"%string, LoadDictionary);
    ("saveDictionary"%string, SaveDictionary);
    ("exactMatchSearch"%string, ExactMatchSearch);
    ("commonPrefixSearch"%string, CommonPrefixSearch);
    ("traverse"%string, Traverse);
    ("size"%string, Size);
    ("build"%string, Build) ].

(** The states of the process: the addon is loaded with an empty handle
    table and no object, over any file system, and then serves calls of
    its exports. *)
Inductive reachable : World -> Prop :=
| reachable_loaded (fs : gmap string (list Z)) (ro : gset string) :
    reachable (mkWorld ∅ O [] [] fs ro [])
| reachable_call (w : World) (name : string)
    (f : World -> list JsValue -> World * Completion) (info : list JsValue) :
    reachable w -> (name, f) ∈ exports -> reachable (fst (f w info)).

(** * Specification devices *)

(** The handle table owns its objects: every entry is a live object, no
    object sits in two slots, [new] never returns an address twice, and
    nothing was deleted twice. *)
Definition world_ok (w : World) : Prop :=
  (forall h a, g_dictionaries w !! h = Some (Some a) -> is_Some (heap w !! a)) /\
  (forall h1 h2 a, g_dictionaries w !! h1 = Some (Some a) ->
                   g_dictionaries w !! h2 = Some (Some a) -> h1 = h2) /\
  (forall a, is_Some (heap w !! a) -> (a < next_addr w)%nat) /\
  (forall a, a ∈ freed w -> heap w !! a = None /\ (a < next_addr w)%nat) /\
  NoDup (freed w).

(** Stepping [traverse] one byte at a time: [n] calls, each resumed from
    the state the call before it returned; the last outcome is kept. *)
Fixpoint step_through (a : Darts.PackedArray) (key : string) (n : nat)
    (nodePos keyPos : Z) (last : Darts.Outcome) : Darts.Outcome :=
  match n with
  | O => last
  | S n' =>
      let '(o, nodePos', keyPos') := Darts.traverse a key nodePos keyPos in
      step_through a key n' nodePos' keyPos' o
  end.

Definition final_outcome (a : Darts.PackedArray) (key : string) : Darts.Outcome :=
  step_through a key (String.length key) 0 0 Darts.NoTransition.



(** The state in which [Build] publishes the array [a], and its handle. *)
Definition published (w : World) (a : Darts.PackedArray) : World * Z :=
  let w1 := fst (new_DartsDict w) in
  AddDictionary (set_heap w1 (<[ next_addr w := a ]> (heap w1))) (next_addr w).

(** The state after [new] and [delete] of one object. *)
Definition discarded (w : World) : World :=
  delete_DartsDict (fst (new_DartsDict w)) (next_addr w).

(** The values [Build] hands to the core. *)
Definition values_chosen (rest : list JsValue) (num_keys : nat) (values : list Z) : Prop :=
  match rest with
  | JArray values_array :: _ =>
      length values_array = num_keys /\ int32s_of values_array = Some values
  | _ => values = index_values num_keys
  end.

Definition invalid_handle : Completion :=
  throw Error "Invalid dictionary handle" JNull.

(** The dictionary of the spec's examples, built by the addon from the
    keys "a", "ab", "abc" with the values 1, 2, 3. *)
Definition example_world : World :=
  fst (Build initial_world [js_strings ["a"; "ab"; "abc"]%string; js_numbers [1; 2; 3]]).

Definition example_array : Darts.PackedArray := deref example_world O.


Definition any_export (name : string) : bool := true.

(** [later allowed w w']: calls of exports whose names [allowed] accepts
    lead from [w] to [w']. *)
Inductive later (allowed : string -> bool) (w : World) : World -> Prop :=
| later_now : later allowed w w
| later_call (w' : World) (name : string)
    (f : World -> list JsValue -> World * Completion) (info : list JsValue) :
    later allowed w w' -> (name, f) ∈ exports -> allowed name = true ->
    later allowed w (fst (f w' info)).

Module BuilderSpec.
Import Darts.

Definition builder_ok (bs : Builder) : Prop :=
  (forall i, i ∈ dom (units bs) -> i ∈ used bs) /\
  (forall i, i ∈ used bs -> 0 <= i < len bs).

(** The walk of [exactMatchSearch], read on the builder's units: from a
    node [s] whose offset is [b], along [k], to the value. *)
Fixpoint mwalk (m : gmap Z DAUnit) (b s : Z) (k : string) : option Z :=
  match k with
  | EmptyString =>
      match m !! (b + 0) with
      | Some u => if (check u =? s) && (base u <? 0) then Some (- base u - 1) else None
      | None => None
      end
  | String c k' =>
      match m !! (b + byte_val c) with
      | Some u => if check u =? s then mwalk m (base u) (b + byte_val c) k' else None
      | None => None
      end
  end.

(** [bs'] keeps what [bs] has and writes only where [bs] had nothing. *)
Definition grows (bs bs' : Builder) : Prop :=
  units bs ⊆ units bs' /\ used bs ⊆ used bs' /\
  (forall i, i ∈ dom (units bs') -> i ∉ dom (units bs) -> i ∉ used bs).

Definition entries_ok (n : nat) (entries : list (string * Z)) : Prop :=
  entries <> [] /\ NoDup (map fst entries) /\
  Forall (fun e => nul_free (fst e) /\ 0 <= snd e /\ (String.length (fst e) < n)%nat) entries.

Definition insert_post (bs : Builder) (s : Z) (entries : list (string * Z))
    (res : Builder * Z) : Prop :=
  builder_ok (fst res) /\ grows bs (fst res) /\
  (forall k v, (k, v) ∈ entries -> mwalk (units (fst res)) (snd res) s k = Some v).

Definition reserve_all (bs : Builder) (b : Z) (codes : list Z) : Builder :=
  foldr (fun c acc => reserve acc (b + c)) bs codes.

Definition place_inv (bs : Builder) (b s : Z) (entries : list (string * Z))
    (acc : Builder) (done todo : list Z) : Prop :=
  builder_ok acc /\ grows bs acc /\
  (forall c, c ∈ next_bytes entries -> b + c ∈ used acc) /\
  (forall c, c ∈ todo -> b + c ∉ dom (units acc)) /\
  (forall k v, (k, v) ∈ entries -> code_of k ∈ done ->
               mwalk (units acc) b s k = Some v).

Definition rec_ok (n : nat)
    (rec : Builder -> Z -> list (string * Z) -> Builder * Z) : Prop :=
  forall bs s entries, builder_ok bs -> entries_ok n entries ->
                       insert_post bs s entries (rec bs s entries).

End BuilderSpec.

(** Every object [new] has made was deleted or sits in the handle
    table. *)
Definition no_leak (w : World) : Prop :=
  forall a, (a < next_addr w)%nat ->
            a ∈ freed w \/ exists k, g_dictionaries w !! k = Some (Some a).

(** The last part of [Build], from [new DartsDict()] on, in the proof of
    [Build_cases]. *)
Ltac build_tail keys_array rest raw_keys values :=
  right; exists keys_array, rest, raw_keys, values;
  split; [done |]; split; [done |]; split; [done |];
  unfold new_DartsDict, published, discarded; simpl;
  destruct (Darts.build _ values); try done; by destruct (AddDictionary _ _).

(** * Facts about machine integers and byte strings *)

Lemma to_uint32_small z : 0 <= z < 2 ^ 32 -> Int.to_uint32 z = z.
Proof. intros H. unfold Int.to_uint32. apply Z.mod_small. exact H. Qed.

Lemma to_int32_small z : - 2 ^ 31 <= z < 2 ^ 31 -> Int.to_int32 z = z.
Proof. intros H. unfold Int.to_int32. rewrite Z.mod_small; lia. Qed.

Lemma to_int32_range z : - 2 ^ 31 <= Int.to_int32 z < 2 ^ 31.
Proof.
  unfold Int.to_int32.
  pose proof (Z.mod_pos_bound (z + 2 ^ 31) (2 ^ 32)). lia.
Qed.

(** * Correctness of the construction *)

Section BuilderFacts.
Import Darts BuilderSpec.

Lemma byte_val_range c : 0 <= byte_val c < 256.
Proof.
  unfold byte_val. pose proof (N_ascii_bounded c) as H. lia.
Qed.

Lemma byte_val_inj c1 c2 : byte_val c1 = byte_val c2 -> c1 = c2.
Proof.
  unfold byte_val. intros H. apply N2Z.inj in H.
  rewrite <- (ascii_N_embedding c1), <- (ascii_N_embedding c2). congruence.
Qed.

Lemma code_of_nonneg k : 0 <= code_of k.
Proof. destruct k; simpl; [lia | apply byte_val_range]. Qed.

Lemma mwalk_mono m m' b s k v :
  m ⊆ m' -> mwalk m b s k = Some v -> mwalk m' b s k = Some v.
Proof.
  intros Hsub. revert b s. induction k as [| c k IH]; intros b s; simpl.
  - destruct (m !! (b + 0)) as [u |] eqn:E; [| discriminate].
    rewrite (lookup_weaken _ _ _ _ E Hsub). auto.
  - destruct (m !! (b + byte_val c)) as [u |] eqn:E; [| discriminate].
    rewrite (lookup_weaken _ _ _ _ E Hsub).
    destruct (check u =? s); [apply IH | discriminate].
Qed.

Lemma grows_trans bs1 bs2 bs3 :
  builder_ok bs2 -> grows bs1 bs2 -> grows bs2 bs3 -> grows bs1 bs3.
Proof.
  intros Hok (Hu1 & Hs1 & Hw1) (Hu2 & Hs2 & Hw2).
  split; [by etrans | split; [by etrans |]].
  intros i Hi3 Hi1.
  destruct (decide (i ∈ dom (units bs2))) as [Hi2 | Hi2].
  - by apply Hw1.
  - intros Hused. apply (Hw2 i Hi3 Hi2). by apply Hs1.
Qed.

Lemma elem_of_next_bytes c entries :
  c ∈ next_bytes entries <-> exists k v, (k, v) ∈ entries /\ code_of k = c.
Proof.
  unfold next_bytes. rewrite elem_of_remove_dups. split.
  - intros H. apply list_elem_of_fmap in H as ([k v] & -> & Hin). eauto.
  - intros (k & v & Hin & <-).
    apply (list_elem_of_fmap_2 (fun e => code_of (fst e)) _ (k, v)). exact Hin.
Qed.

Lemma find_base_fits bs codes :
  builder_ok bs -> (forall c, c ∈ codes -> 0 <= c) ->
  1 <= find_base bs codes /\ forall c, c ∈ codes -> find_base bs codes + c ∉ used bs.
Proof.
  intros [_ Hb] Hc. unfold find_base.
  destruct (List.find _ _) as [b |] eqn:E; simpl.
  - apply find_some in E as [Hin Hfit].
    apply in_map_iff in Hin as (n & <- & Hn). apply in_seq in Hn.
    split; [lia |]. intros c Hcin.
    unfold fits in Hfit. rewrite forallb_forall in Hfit.
    apply list_elem_of_In in Hcin. specialize (Hfit c Hcin).
    by apply bool_decide_eq_true in Hfit.
  - split; [lia |]. intros c Hcin Hu. apply Hb in Hu. apply Hc in Hcin. lia.
Qed.

Lemma reserve_all_units bs b codes : units (reserve_all bs b codes) = units bs.
Proof. induction codes as [| c codes IH]; simpl; auto. Qed.

Lemma reserve_all_used bs b codes i :
  i ∈ used (reserve_all bs b codes) <-> i ∈ used bs \/ exists c, c ∈ codes /\ i = b + c.
Proof.
  induction codes as [| c codes IH]; simpl.
  - split; [auto | intros [H | (c & Hc & _)]; [done | by apply elem_of_nil in Hc]].
  - rewrite elem_of_union, elem_of_singleton, IH. split.
    + intros [-> | [H | (c' & Hc' & ->)]].
      * right. exists c. split; [left | done].
      * by left.
      * right. exists c'. split; [by right | done].
    + intros [H | (c' & Hc' & ->)].
      * right. by left.
      * apply elem_of_cons in Hc' as [-> | Hc']; [by left |].
        right. right. eauto.
Qed.

Lemma reserve_all_ok bs b codes :
  builder_ok bs -> 1 <= b -> (forall c, c ∈ codes -> 0 <= c) ->
  builder_ok (reserve_all bs b codes).
Proof.
  intros Hok Hb. induction codes as [| c codes IH]; intros Hc; simpl; [done |].
  destruct IH as [IH1 IH2].
  { intros c' Hc'. apply Hc. by right. }
  assert (0 <= c) by (apply Hc; left).
  split; simpl.
  - intros i Hi. apply elem_of_union. right. by apply IH1.
  - intros i Hi. apply elem_of_union in Hi as [Hi | Hi].
    + apply elem_of_singleton in Hi. lia.
    + apply IH2 in Hi. lia.
Qed.

Lemma lookup_entries_functional (entries : list (string * Z)) k v1 v2 :
  NoDup (map fst entries) -> (k, v1) ∈ entries -> (k, v2) ∈ entries -> v1 = v2.
Proof.
  induction entries as [| [k0 v0] entries IH]; simpl; intros Hnd H1 H2.
  - by apply elem_of_nil in H1.
  - apply NoDup_cons in Hnd as [Hnot Hnd].
    apply elem_of_cons in H1 as [H1 | H1]; apply elem_of_cons in H2 as [H2 | H2].
    + congruence.
    + exfalso. apply Hnot. inversion H1; subst.
      apply (list_elem_of_fmap_2 fst _ (k0, v2)). exact H2.
    + exfalso. apply Hnot. inversion H2; subst.
      apply (list_elem_of_fmap_2 fst _ (k0, v1)). exact H1.
    + by apply IH.
Qed.

Lemma terminal_of_end entries v :
  NoDup (map fst entries) -> (EmptyString, v) ∈ entries -> terminal_of entries = Some v.
Proof.
  intros Hnd Hin. unfold terminal_of.
  destruct (List.find is_end entries) as [[k v'] |] eqn:E; simpl.
  - apply find_some in E as [Hin' Hend]. apply list_elem_of_In in Hin'.
    unfold is_end in Hend. simpl in Hend. destruct k; [| discriminate].
    f_equal. eapply lookup_entries_functional; eauto.
  - apply list_elem_of_In in Hin.
    pose proof (find_none _ _ E _ Hin) as H. discriminate.
Qed.

Lemma elem_of_children_of c entries k' v :
  (k', v) ∈ children_of c entries <->
  exists c', byte_val c' = c /\ (String c' k', v) ∈ entries.
Proof.
  unfold children_of. rewrite list_elem_of_omap. split.
  - intros ([k0 v0] & Hin & Hch). unfold child_entry in Hch. simpl in Hch.
    destruct k0 as [| c' k0]; [discriminate |].
    destruct (byte_val c' =? c) eqn:E; [| discriminate].
    inversion Hch; subst. apply Z.eqb_eq in E. eauto.
  - intros (c' & Hc & Hin). exists (String c' k', v). split; [done |].
    unfold child_entry. simpl. apply Z.eqb_eq in Hc. by rewrite Hc.
Qed.

Lemma children_of_NoDup c entries :
  NoDup (map fst entries) -> NoDup (map fst (children_of c entries)).
Proof.
  induction entries as [| [k v] entries IH]; simpl; intros Hnd; [constructor |].
  apply NoDup_cons in Hnd as [Hnot Hnd]. specialize (IH Hnd).
  unfold child_entry at 1. simpl.
  destruct k as [| c' k']; [exact IH |].
  destruct (byte_val c' =? c) eqn:E; [| exact IH].
  simpl. apply NoDup_cons. split; [| exact IH].
  intros Hin. apply Hnot.
  apply list_elem_of_fmap in Hin as ([k2 v2] & Hk & Hin). simpl in Hk. subst k2.
  apply elem_of_children_of in Hin as (c2 & Hc2 & Hin).
  apply Z.eqb_eq in E. rewrite <- E in Hc2. apply byte_val_inj in Hc2. subst c2.
  apply (list_elem_of_fmap_2 fst _ (String c' k', v2)). exact Hin.
Qed.

Lemma children_of_ok n c entries :
  entries_ok (S n) entries -> c ∈ next_bytes entries -> c <> 0 ->
  entries_ok n (children_of c entries).
Proof.
  intros (_ & Hnd & Hall) Hc Hc0. split; [| split].
  - apply elem_of_next_bytes in Hc as (k & v & Hin & Hk).
    destruct k as [| c' k']; simpl in Hk; [congruence |].
    assert (H : (k', v) ∈ children_of c entries)
      by (apply elem_of_children_of; eauto).
    intros E. rewrite E in H. by apply elem_of_nil in H.
  - by apply children_of_NoDup.
  - apply Forall_forall. intros [k' v] Hin.
    apply elem_of_children_of in Hin as (c' & _ & Hin).
    rewrite Forall_forall in Hall. specialize (Hall _ Hin). simpl in Hall.
    destruct Hall as ((_ & Hnf) & Hv & Hlen). simpl. repeat split; auto. lia.
Qed.

Lemma write_ok acc t u :
  builder_ok acc -> t ∈ used acc -> builder_ok (write acc t u).
Proof.
  intros [H1 H2] Ht. split; simpl; [| exact H2].
  intros i Hi. rewrite dom_insert in Hi.
  apply elem_of_union in Hi as [Hi | Hi]; [| by apply H1].
  apply elem_of_singleton in Hi. by subst.
Qed.

Lemma write_units_subseteq acc t u :
  t ∉ dom (units acc) -> units acc ⊆ units (write acc t u).
Proof. intros Ht. simpl. apply insert_subseteq. by apply not_elem_of_dom. Qed.

Lemma grows_write bs acc t u :
  grows bs acc -> t ∉ used bs -> t ∉ dom (units acc) -> grows bs (write acc t u).
Proof.
  intros (Hu & Hs & Hw) Ht Hfresh. split; [| split]; simpl.
  - etrans; [exact Hu |]. apply insert_subseteq. by apply not_elem_of_dom.
  - exact Hs.
  - intros i Hi Hi0. rewrite dom_insert in Hi.
    apply elem_of_union in Hi as [Hi | Hi]; [| by apply Hw].
    apply elem_of_singleton in Hi. by subst.
Qed.

Lemma grows_fresh bs acc t :
  grows bs acc -> t ∈ used bs -> t ∉ dom (units bs) -> t ∉ dom (units acc).
Proof. intros (_ & _ & Hw) Hu Hd Hin. by apply (Hw t Hin Hd). Qed.

Lemma entries_code_zero n entries k v :
  entries_ok n entries -> (k, v) ∈ entries -> code_of k = 0 -> k = EmptyString.
Proof.
  intros (_ & _ & Hall) Hin Hk. rewrite Forall_forall in Hall.
  specialize (Hall _ Hin). simpl in Hall. destruct Hall as (Hnf & _).
  destruct k as [| c k]; [done |]. simpl in *. tauto.
Qed.

Section Place.

Variable n : nat.
Variable rec : Builder -> Z -> list (string * Z) -> Builder * Z.
Hypothesis Hrec : rec_ok n rec.
Variables (bs : Builder) (b s : Z) (entries : list (string * Z)).
Hypothesis Hent : entries_ok (S n) entries.
Hypothesis Hfit : forall c, c ∈ next_bytes entries -> b + c ∉ used bs.

Lemma place_step acc done c todo :
  c ∈ next_bytes entries -> c ∉ todo ->
  (forall c', c' ∈ todo -> c' ∈ next_bytes entries) ->
  place_inv bs b s entries acc done (c :: todo) ->
  place_inv bs b s entries (place rec entries b s acc c) (c :: done) todo.
Proof.
  intros Hc Hnotin Hsub (Hok & Hgr & Hres & Htodo & Hwalk).
  assert (Hnew : b + c ∉ used bs) by (by apply Hfit).
  assert (Hfresh : b + c ∉ dom (units acc)) by (apply Htodo; left).
  assert (Hused : b + c ∈ used acc) by (by apply Hres).
  unfold place. destruct (c =? 0) eqn:Ec.
  - apply Z.eqb_eq in Ec. subst c.
    destruct (proj1 (elem_of_next_bytes _ _) Hc) as (k0 & v0 & Hin0 & Hk0).
    pose proof (entries_code_zero _ _ _ _ Hent Hin0 Hk0) as ->.
    destruct Hent as (_ & Hnd & Hall).
    rewrite (terminal_of_end _ _ Hnd Hin0).
    split; [by apply write_ok |].
    split; [by apply grows_write |].
    split; [exact Hres |].
    split.
    + intros c' Hc'. simpl. rewrite dom_insert. intros Hin.
      apply elem_of_union in Hin as [Hin | Hin].
      * apply elem_of_singleton in Hin. assert (c' = 0) by lia. by subst.
      * apply (Htodo c'); [by right | done].
    + intros k v Hin Hcode. apply elem_of_cons in Hcode as [Hcode | Hcode].
      * pose proof (entries_code_zero _ _ _ _ Hent Hin Hcode) as ->.
        pose proof (lookup_entries_functional _ _ _ _ Hnd Hin Hin0) as ->.
        simpl. rewrite lookup_insert_eq. simpl.
        rewrite Forall_forall in Hall. specialize (Hall _ Hin0). simpl in Hall.
        rewrite Z.eqb_refl. simpl.
        destruct (- v0 - 1 <? 0) eqn:E; [f_equal; lia | apply Z.ltb_ge in E; lia].
      * eapply mwalk_mono; [| by apply Hwalk]. by apply write_units_subseteq.
  - apply Z.eqb_neq in Ec.
    pose proof (Hrec acc (b + c) (children_of c entries) Hok
                     (children_of_ok _ _ _ Hent Hc Ec)) as Hpost.
    destruct (rec acc (b + c) (children_of c entries)) as [acc1 bc].
    destruct Hpost as (Hok1 & Hgr1 & Hw1). simpl in *.
    assert (Hfresh1 : b + c ∉ dom (units acc1)) by (eapply grows_fresh; eauto).
    assert (Hused1 : forall i, i ∈ used acc -> i ∈ used acc1).
    { intros i Hi. destruct Hgr1 as (_ & Hs & _). by apply Hs. }
    split; [apply write_ok; auto |].
    split.
    { apply grows_write; [| done | done]. by apply (grows_trans bs acc acc1). }
    split; [intros c' Hc'; simpl; apply Hused1; by apply Hres |].
    split.
    + intros c' Hc'. simpl. rewrite dom_insert. intros Hin.
      apply elem_of_union in Hin as [Hin | Hin].
      * apply elem_of_singleton in Hin. assert (c' = c) by lia. by subst.
      * revert Hin. eapply grows_fresh; [exact Hgr1 | |].
        -- apply Hres. by apply Hsub.
        -- apply Htodo. by right.
    + intros k v Hin Hcode. apply elem_of_cons in Hcode as [Hcode | Hcode].
      * destruct k as [| c0 k']; simpl in Hcode; [congruence |].
        assert (Hch : (k', v) ∈ children_of c entries)
          by (apply elem_of_children_of; eauto).
        specialize (Hw1 _ _ Hch). simpl.
        rewrite Hcode, lookup_insert_eq. simpl. rewrite Z.eqb_refl.
        eapply mwalk_mono; [| exact Hw1]. by apply insert_subseteq, not_elem_of_dom.
      * eapply mwalk_mono; [| by apply Hwalk].
        destruct Hgr1 as (Hu & _). etrans; [exact Hu |].
        by apply insert_subseteq, not_elem_of_dom.
Qed.

Lemma place_fold todo : forall acc done,
  NoDup todo -> (forall c, c ∈ todo -> c ∈ next_bytes entries) ->
  place_inv bs b s entries acc done todo ->
  place_inv bs b s entries (fold_left (place rec entries b s) todo acc)
            (rev todo ++ done) [].
Proof.
  induction todo as [| c todo IH]; intros acc done Hnd Hsub Hinv; simpl.
  - exact Hinv.
  - apply NoDup_cons in Hnd as [Hc Hnd].
    replace ((rev todo ++ [c]) ++ done) with (rev todo ++ c :: done)
      by (by rewrite <- app_assoc).
    apply IH; [exact Hnd | intros c' Hc'; apply Hsub; by right |].
    apply place_step; [apply Hsub; left | exact Hc | | exact Hinv].
    intros c' Hc'. apply Hsub. by right.
Qed.

End Place.

Lemma insert_ok n : rec_ok n (insert n).
Proof.
  induction n as [| n IH]; intros bs s entries Hok Hent.
  - exfalso. destruct Hent as (Hne & _ & Hall).
    destruct entries as [| e entries]; [done |].
    apply Forall_cons in Hall as [(_ & _ & Hlen) _]. lia.
  - simpl.
    set (codes := next_bytes entries).
    set (b := find_base bs codes).
    assert (Hcodes : forall c, c ∈ codes -> 0 <= c).
    { intros c Hc. apply elem_of_next_bytes in Hc as (k & v & _ & <-).
      apply code_of_nonneg. }
    destruct (find_base_fits bs codes Hok Hcodes) as [Hb Hfit]. fold b in Hb, Hfit.
    pose proof (place_fold n (insert n) IH bs b s entries Hent Hfit codes
                  (reserve_all bs b codes) []) as Hfold.
    destruct Hfold as (Hok' & Hgr' & _ & _ & Hwalk').
    + apply NoDup_remove_dups.
    + auto.
    + split; [by apply reserve_all_ok |].
      split.
      { split; [by rewrite reserve_all_units |].
        split.
        - intros i Hi. apply reserve_all_used. by left.
        - intros i Hi Hni. rewrite reserve_all_units in Hi. done. }
      split.
      { intros c Hc. apply reserve_all_used. right. eauto. }
      split.
      { intros c Hc. rewrite reserve_all_units. intros Hin.
        destruct Hok as [H1 _]. apply H1 in Hin. by apply (Hfit c). }
      intros k v _ Hin. by apply elem_of_nil in Hin.
    + split; [exact Hok' |]. split; [exact Hgr' |].
      intros k v Hin. simpl. apply Hwalk'; [exact Hin |].
      rewrite app_nil_r.
      apply list_elem_of_In, (proj1 (in_rev _ _)), list_elem_of_In.
      apply elem_of_next_bytes. eauto.
Qed.

Lemma unit_at_freeze bs t u :
  builder_ok bs -> units bs !! t = Some u -> unit_at (freeze bs) t = Some u.
Proof.
  intros [H1 H2] Hu.
  assert (Hr : 0 <= t < len bs) by (apply H2, H1, elem_of_dom; eauto).
  assert (Hf : freeze bs =
               (fun i => default unused_unit (units bs !! Z.of_nat i)) <$>
               seq 0 (Z.to_nat (len bs))) by reflexivity.
  unfold unit_at. rewrite Hf, length_fmap, length_seq, Z2Nat.id by lia.
  rewrite list_lookup_fmap, lookup_seq_lt by lia.
  destruct (0 <=? t) eqn:E1; [| apply Z.leb_gt in E1; lia].
  destruct (t <? len bs) eqn:E2; [| apply Z.ltb_ge in E2; lia].
  simpl. rewrite Z2Nat.id by lia. by rewrite Hu.
Qed.

Lemma walk_freeze bs k : forall b s v us,
  builder_ok bs -> units bs !! s = Some us -> base us = b ->
  mwalk (units bs) b s k = Some v ->
  exists n, walk (freeze bs) s k = Some n /\ terminal_value (freeze bs) n = Some v.
Proof.
  induction k as [| c k IH]; intros b s v us Hok Hs Hb Hw; simpl in *.
  - exists s. split; [done |].
    destruct (units bs !! (b + 0)) as [u |] eqn:Eu; [| discriminate].
    destruct (check u =? s) eqn:Ec; [| discriminate].
    destruct (base u <? 0) eqn:Eb; [| discriminate].
    simpl in Hw. unfold terminal_value, step.
    rewrite (unit_at_freeze _ _ _ Hok Hs), Hb.
    rewrite (unit_at_freeze _ _ _ Hok Eu), Ec.
    by rewrite (unit_at_freeze _ _ _ Hok Eu), Eb.
  - destruct (units bs !! (b + byte_val c)) as [u |] eqn:Eu; [| discriminate].
    destruct (check u =? s) eqn:Ec; [| discriminate].
    unfold step.
    rewrite (unit_at_freeze _ _ _ Hok Hs), Hb.
    rewrite (unit_at_freeze _ _ _ Hok Eu), Ec.
    by apply (IH (base u) (b + byte_val c) v u).
Qed.

Lemma string_ltb_lt a b : string_ltb a b = true <-> string_lt a b.
Proof.
  unfold string_ltb, string_lt.
  destruct (String_as_OT.compare a b); split; intros; congruence.
Qed.

#[local] Instance string_lt_trans : Transitive string_lt.
Proof.
  intros x y z. apply (@StrictOrder_Transitive _ _ String_as_OT.lt_strorder).
Qed.

Lemma string_lt_irrefl a : ~ string_lt a a.
Proof. apply (@StrictOrder_Irreflexive _ _ String_as_OT.lt_strorder). Qed.

Lemma strictly_sorted_Sorted keys :
  strictly_sorted keys = true -> Sorted string_lt keys.
Proof.
  induction keys as [| a rest IH]; [constructor |].
  simpl. destruct rest as [| b rest'].
  - intros _. repeat constructor.
  - intros H. apply andb_true_iff in H as [Hab Hrest].
    constructor; [by apply IH |]. constructor. by apply string_ltb_lt.
Qed.

Lemma strictly_sorted_NoDup keys : strictly_sorted keys = true -> NoDup keys.
Proof.
  intros H. apply strictly_sorted_Sorted in H.
  apply Sorted_StronglySorted in H; [| exact string_lt_trans].
  induction H as [| a l Hl IH Hall]; [constructor |].
  apply NoDup_cons. split; [| exact IH].
  intros Hin. rewrite Forall_forall in Hall.
  by apply (string_lt_irrefl a), Hall.
Qed.

Lemma zip_fst_NoDup (keys : list string) (values : list Z) :
  NoDup keys -> NoDup (map fst (zip keys values)).
Proof.
  intros Hnd. revert values.
  induction Hnd as [| k keys Hk Hnd IH]; intros values; [constructor |].
  destruct values as [| v values]; simpl; [constructor |].
  apply NoDup_cons. split; [| apply IH].
  intros Hin. apply Hk.
  apply list_elem_of_fmap in Hin as ([k' v'] & -> & Hin).
  by apply elem_of_zip_l in Hin.
Qed.

Lemma max_key_length_ge keys k :
  k ∈ keys -> (String.length k <= max_key_length keys)%nat.
Proof.
  induction keys as [| a keys IH]; intros Hin; [by apply elem_of_nil in Hin |].
  simpl. apply elem_of_cons in Hin as [-> | Hin]; [lia |].
  specialize (IH Hin). lia.
Qed.

Lemma value_ok_nonneg v : value_ok v = true -> 0 <= v <= Int.INT32_MAX - 1.
Proof. unfold value_ok. intros H. apply andb_true_iff in H as [H1 H2]. lia. Qed.

(** Exactness of the construction: a key of a successful build is found
    with the value given at its position. *)
Lemma build_exact keys values a i k v :
  build keys values = BuildOk a ->
  Forall nul_free keys ->
  keys !! i = Some k -> values !! i = Some v ->
  exactMatchSearch a k = Found v.
Proof.
  intros Hbuild Hnf Hk Hv. unfold build in Hbuild.
  destruct keys as [| k0 keys0] eqn:Ekeys; [discriminate |]. rewrite <- Ekeys in *.
  set (bs0 := reserve (mkBuilder ∅ ∅ 0) 0) in *.
  remember (insert (S (max_key_length keys)) bs0 0 (zip keys values)) as r eqn:Er.
  destruct (strictly_sorted keys) eqn:Hsorted; simpl in Hbuild; [| discriminate].
  destruct (existsb _ keys) eqn:Hempty; [discriminate |].
  destruct (forallb value_ok values) eqn:Hvals; simpl in Hbuild; [| discriminate].
  assert (Hok0 : builder_ok bs0).
  { split; simpl.
    - intros j Hj. rewrite dom_empty in Hj. by apply elem_of_empty in Hj.
    - intros j Hj. apply elem_of_union in Hj as [Hj | Hj].
      + apply elem_of_singleton in Hj. lia.
      + by apply elem_of_empty in Hj. }
  assert (Hin : (k, v) ∈ zip keys values).
  { apply (list_elem_of_lookup_2 _ i). apply lookup_zip_with_Some. eauto. }
  assert (Hent : entries_ok (S (max_key_length keys)) (zip keys values)).
  { split; [intros E; rewrite E in Hin; by apply elem_of_nil in Hin |].
    split; [by apply zip_fst_NoDup, strictly_sorted_NoDup |].
    apply Forall_forall. intros [k' v'] Hin'. simpl.
    pose proof (elem_of_zip_l _ _ _ _ Hin') as Hk'.
    pose proof (elem_of_zip_r _ _ _ _ Hin') as Hv'.
    rewrite Forall_forall in Hnf.
    split; [by apply Hnf |]. split.
    - rewrite forallb_forall in Hvals. apply list_elem_of_In in Hv'.
      apply Hvals, value_ok_nonneg in Hv'. lia.
    - pose proof (max_key_length_ge _ _ Hk'). lia. }
  pose proof (insert_ok _ bs0 0 _ Hok0 Hent) as Hpost. rewrite <- Er in Hpost.
  destruct r as [bs b0]. destruct Hpost as (Hok & Hgr & Hwalk).
  simpl in Hok, Hgr, Hwalk.
  destruct (len bs <=? memory_ceiling); [| discriminate].
  inversion Hbuild; subst a; clear Hbuild.
  assert (Hfresh : 0 ∉ dom (units bs)).
  { eapply grows_fresh; [exact Hgr | |]; simpl.
    - apply elem_of_union. left. by apply elem_of_singleton.
    - rewrite dom_empty. apply not_elem_of_empty. }
  assert (Hused : 0 ∈ used bs).
  { destruct Hgr as (_ & Hs & _). apply Hs. simpl.
    apply elem_of_union. left. by apply elem_of_singleton. }
  set (bs' := write bs 0 (mkUnit b0 0)).
  assert (Hok' : builder_ok bs') by (by apply write_ok).
  assert (Hw : mwalk (units bs') b0 0 k = Some v).
  { eapply mwalk_mono; [by apply write_units_subseteq | by apply Hwalk]. }
  destruct (walk_freeze bs' k b0 0 v (mkUnit b0 0) Hok') as (n & Hn & Ht);
    [apply lookup_insert_eq | done | exact Hw |].
  unfold exactMatchSearch. by rewrite Hn, Ht.
Qed.

End BuilderFacts.

(** * The handle table *)

Lemma find_empty_slot_Some g : forall i j,
  find_empty_slot g i = Some j ->
  (i <= j < i + length g)%nat /\ g !! (j - i)%nat = Some None /\
  forall k, (k < j - i)%nat -> exists a, g !! k = Some (Some a).
Proof.
  induction g as [| [a |] g IH]; intros i j H; simpl in *.
  - discriminate.
  - apply IH in H as (Hr & Hj & Hbefore).
    replace (j - i)%nat with (S (j - S i)) by lia.
    split; [lia |]. split; [exact Hj |].
    intros [| k] Hk; simpl; [eauto |]. apply Hbefore. lia.
  - inversion H; subst j. rewrite Nat.sub_diag.
    split; [lia |]. split; [done |]. intros k Hk. lia.
Qed.

Lemma find_empty_slot_None g i :
  find_empty_slot g i = None -> forall k, g !! k <> Some None.
Proof.
  revert i. induction g as [| [a |] g IH]; intros i H k; simpl in *.
  - by rewrite lookup_nil.
  - destruct k as [| k]; simpl; [discriminate | by apply (IH (S i))].
  - discriminate.
Qed.

Lemma GetDictionaryFromHandle_nat w (i : nat) :
  GetDictionaryFromHandle w (Z.of_nat i) =
  match g_dictionaries w !! i with
  | Some (Some a) => Some a
  | _ => None
  end.
Proof.
  unfold GetDictionaryFromHandle. rewrite Nat2Z.id.
  destruct (Z.of_nat i <? Z.of_nat (length (g_dictionaries w))) eqn:E; [done |].
  apply Z.ltb_ge in E. rewrite lookup_ge_None_2; [done | lia].
Qed.

(** What [AddDictionary] does to a table with fewer than 2^32 slots. *)
Lemma AddDictionary_spec w dict :
  exists i : nat,
    (Z.of_nat (length (g_dictionaries w)) < 2 ^ 32 ->
     snd (AddDictionary w dict) = Z.of_nat i) /\
    (i <= length (g_dictionaries w))%nat /\
    (forall k, (k < i)%nat -> exists a, g_dictionaries w !! k = Some (Some a)) /\
    ((g_dictionaries w !! i = Some None /\
      g_dictionaries (fst (AddDictionary w dict)) = <[ i := Some dict ]> (g_dictionaries w)) \/
     (i = length (g_dictionaries w) /\
      (forall k, g_dictionaries w !! k <> Some None) /\
      g_dictionaries (fst (AddDictionary w dict)) = g_dictionaries w ++ [Some dict])) /\
    g_dictionaries (fst (AddDictionary w dict)) !! i = Some (Some dict) /\
    (forall k, k <> i ->
       g_dictionaries (fst (AddDictionary w dict)) !! k = g_dictionaries w !! k) /\
    heap (fst (AddDictionary w dict)) = heap w /\
    freed (fst (AddDictionary w dict)) = freed w /\
    next_addr (fst (AddDictionary w dict)) = next_addr w /\
    files (fst (AddDictionary w dict)) = files w /\
    unwritable (fst (AddDictionary w dict)) = unwritable w /\
    callbacks (fst (AddDictionary w dict)) = callbacks w.
Proof.
  unfold AddDictionary.
  destruct (find_empty_slot (g_dictionaries w) 0) as [i |] eqn:E; simpl.
  - apply find_empty_slot_Some in E as (Hr & Hi & Hbefore).
    rewrite Nat.sub_0_r in *. exists i.
    split; [done |]. split; [lia |]. split; [exact Hbefore |].
    split; [left; done |].
    split; [apply list_lookup_insert_eq; lia |].
    split; [| done].
    intros k Hk. by apply list_lookup_insert_ne.
  - exists (length (g_dictionaries w)).
    split.
    { intros Hlen. rewrite length_app. simpl. rewrite to_uint32_small; lia. }
    split; [lia |]. split.
    { intros k Hk. destruct (lookup_lt_is_Some_2 _ _ Hk) as [[a |] Ha]; [eauto |].
      by apply (find_empty_slot_None _ _ E) in Ha. }
    split; [right; split; [done | split; [by eapply find_empty_slot_None | done]] |].
    split.
    { rewrite lookup_app_r by lia. by rewrite Nat.sub_diag. }
    split; [| done].
    intros k Hk. destruct (decide (k < length (g_dictionaries w))%nat).
    + by rewrite lookup_app_l.
    + rewrite (lookup_ge_None_2 (g_dictionaries w)) by lia.
      apply lookup_ge_None_2. rewrite length_app. simpl. lia.
Qed.

Lemma elem_of_exports name f :
  (name, f) ∈ exports ->
  f = CreateDictionary \/ f = DestroyDictionary \/ f = LoadDictionary \/
  f = SaveDictionary \/ f = ExactMatchSearch \/ f = CommonPrefixSearch \/
  f = Traverse \/ f = Size \/ f = Build.
Proof.
  unfold exports. intros H.
  repeat (apply elem_of_cons in H as [H | H]; [inversion H; tauto |]).
  by apply elem_of_nil in H.
Qed.

Lemma world_ok_new w :
  world_ok w ->
  world_ok (fst (new_DartsDict w)) /\
  heap w !! next_addr w = None /\
  (forall h, g_dictionaries w !! h <> Some (Some (next_addr w))) /\
  next_addr w ∉ freed w.
Proof.
  intros (Hlive & Hinj & Hnext & Hfreed & Hnd).
  assert (Hfresh : heap w !! next_addr w = None).
  { destruct (heap w !! next_addr w) eqn:E; [| done].
    assert (next_addr w < next_addr w)%nat by (apply Hnext; eauto). lia. }
  split; [| split; [exact Hfresh | split]].
  - unfold new_DartsDict, world_ok. simpl.
    split.
    { intros h a Ha. rewrite lookup_insert. case_decide; [eauto |].
      by eapply Hlive. }
    split; [exact Hinj |].
    split.
    { intros a Ha. rewrite lookup_insert in Ha. case_decide; [lia |].
      apply Hnext in Ha. lia. }
    split; [| exact Hnd].
    intros a Ha. apply Hfreed in Ha as [Ha1 Ha2].
    split; [| lia]. rewrite lookup_insert_ne; [done | lia].
  - intros h Hh. apply Hlive in Hh. rewrite Hfresh in Hh. by destruct Hh.
  - intros Hin. apply Hfreed in Hin as [_ Hlt]. lia.
Qed.

Lemma world_ok_AddDictionary w dict :
  world_ok w -> is_Some (heap w !! dict) ->
  (forall h, g_dictionaries w !! h <> Some (Some dict)) ->
  world_ok (fst (AddDictionary w dict)).
Proof.
  intros (Hlive & Hinj & Hnext & Hfreed & Hnd) Hdict Hnew.
  destruct (AddDictionary_spec w dict)
    as (i & _ & _ & _ & _ & Hi & Hother & Hheap & Hfr & Hnx & _).
  unfold world_ok. rewrite Hheap, Hfr, Hnx.
  assert (Hlook : forall h a,
    g_dictionaries (fst (AddDictionary w dict)) !! h = Some (Some a) ->
    (h = i /\ a = dict) \/ (h <> i /\ g_dictionaries w !! h = Some (Some a))).
  { intros h a Ha. destruct (decide (h = i)) as [-> | Hne].
    - left. rewrite Hi in Ha. by inversion Ha.
    - right. rewrite Hother in Ha by done. done. }
  split.
  { intros h a Ha. apply Hlook in Ha as [[_ ->] | [_ Ha]]; [done | by eapply Hlive]. }
  split; [| done].
  intros h1 h2 a H1 H2.
  apply Hlook in H1 as [[-> ->] | [Hn1 H1]]; apply Hlook in H2 as [[-> E2] | [Hn2 H2]].
  - done.
  - by apply Hnew in H2.
  - subst a. by apply Hnew in H1.
  - by eapply Hinj.
Qed.

Lemma RemoveDictionary_live w h a :
  0 <= h -> GetDictionaryFromHandle w h = Some a ->
  RemoveDictionary w h =
  set_g_dictionaries (delete_DartsDict w a)
                     (<[ Z.to_nat h := None ]> (g_dictionaries w)).
Proof.
  unfold GetDictionaryFromHandle, RemoveDictionary. intros Hh H.
  destruct (h <? Z.of_nat (length (g_dictionaries w))); [| discriminate].
  destruct (g_dictionaries w !! Z.to_nat h) as [[d |] |]; try discriminate.
  by inversion H.
Qed.

Lemma RemoveDictionary_dead w h :
  GetDictionaryFromHandle w h = None -> RemoveDictionary w h = w.
Proof.
  unfold GetDictionaryFromHandle, RemoveDictionary. intros H.
  destruct (h <? Z.of_nat (length (g_dictionaries w))); [| done].
  destruct (g_dictionaries w !! Z.to_nat h) as [[d |] |]; done.
Qed.

Lemma GetDictionaryFromHandle_lookup w h a :
  0 <= h -> GetDictionaryFromHandle w h = Some a ->
  g_dictionaries w !! Z.to_nat h = Some (Some a).
Proof.
  unfold GetDictionaryFromHandle. intros Hh H.
  destruct (h <? Z.of_nat (length (g_dictionaries w))); [| discriminate].
  destruct (g_dictionaries w !! Z.to_nat h) as [[d |] |]; try discriminate.
  by inversion H.
Qed.

Lemma Uint32Value_nonneg n : 0 <= Uint32Value n < 2 ^ 32.
Proof. unfold Uint32Value, Int.to_uint32. apply Z.mod_pos_bound. lia. Qed.

Lemma world_ok_RemoveDictionary w h :
  0 <= h -> world_ok w -> world_ok (RemoveDictionary w h).
Proof.
  intros Hh Hok.
  destruct (GetDictionaryFromHandle w h) as [a |] eqn:E;
    [| by rewrite RemoveDictionary_dead].
  rewrite (RemoveDictionary_live _ _ _ Hh E).
  apply GetDictionaryFromHandle_lookup in E; [| done].
  destruct Hok as (Hlive & Hinj & Hnext & Hfreed & Hnd).
  unfold world_ok. simpl.
  assert (Hlook : forall k b,
    <[ Z.to_nat h := None ]> (g_dictionaries w) !! k = Some (Some b) ->
    k <> Z.to_nat h /\ g_dictionaries w !! k = Some (Some b)).
  { intros k b Hk. destruct (decide (k = Z.to_nat h)) as [-> | Hne].
    - rewrite list_lookup_insert_eq in Hk; [discriminate |].
      by eapply lookup_lt_Some.
    - by rewrite list_lookup_insert_ne in Hk. }
  split.
  { intros k b Hk. apply Hlook in Hk as [Hne Hk].
    rewrite lookup_delete_ne; [by eapply Hlive |].
    intros ->. apply Hne. by eapply Hinj. }
  split.
  { intros h1 h2 b H1 H2. apply Hlook in H1 as [_ H1]. apply Hlook in H2 as [_ H2].
    by eapply Hinj. }
  split.
  { intros b Hb. apply Hnext. rewrite lookup_delete in Hb.
    case_decide; [by destruct Hb | done]. }
  split.
  { intros b Hb. apply elem_of_app in Hb as [Hb | Hb].
    - apply Hfreed in Hb as [Hb1 Hb2]. split; [| done].
      rewrite lookup_delete. by case_decide.
    - apply list_elem_of_singleton in Hb. subst b.
      split; [apply lookup_delete_eq |]. apply Hnext. by eapply Hlive. }
  apply NoDup_app. split; [done |]. split; [| apply NoDup_singleton].
  intros b Hb Hb'. apply list_elem_of_singleton in Hb'.
  apply Hfreed in Hb as [Hb _]. apply Hlive in E as [x Hx]. congruence.
Qed.

(** * The ownership discipline of the handle table *)

Lemma Build_cases w info :
  (exists k msg, Build w info = (w, throw k msg JNull)) \/
  (exists keys_array rest raw_keys values,
     info = JArray keys_array :: rest /\
     strings_of keys_array = Some raw_keys /\
     values_chosen rest (length (normalized_keys raw_keys)) values /\
     match Darts.build (map c_str (normalized_keys raw_keys)) values with
     | Darts.BuildOk a =>
         Build w info = (fst (published w a), ret (JNumber (snd (published w a))))
     | _ =>
         Build w info = (discarded w, throw Error "Failed to build dictionary" JNull)
     end).
Proof.
  unfold Build.
  destruct info as [| [| | | | | keys_array |] rest]; try (left; eauto; fail).
  destruct keys_array as [| k0 ks] eqn:Eka; [left; eauto |]. rewrite <- Eka.
  destruct (strings_of keys_array) as [raw_keys |] eqn:Es; [| left; eauto].
  destruct rest as [| [| | | | | values_array |] rest'];
    try (build_tail keys_array (@nil JsValue) raw_keys
           (index_values (length (normalized_keys raw_keys))));
    try (match goal with
         | |- context [JArray keys_array :: ?r] =>
             build_tail keys_array r raw_keys
               (index_values (length (normalized_keys raw_keys)))
         end).
  destruct (length values_array =? length (normalized_keys raw_keys))%nat eqn:El;
    simpl; [| left; eauto].
  apply Nat.eqb_eq in El.
  destruct (int32s_of values_array) as [values |] eqn:Ei; [| left; eauto].
  build_tail keys_array (JArray values_array :: rest') raw_keys values.
Qed.

Lemma world_ok_set_live w d a :
  world_ok w -> is_Some (heap w !! d) ->
  world_ok (set_heap w (<[ d := a ]> (heap w))).
Proof.
  intros (Hlive & Hinj & Hnext & Hfreed & Hnd) Hd. unfold world_ok. simpl.
  split.
  { intros h b Hb. rewrite lookup_insert. case_decide; [eauto | by eapply Hlive]. }
  split; [exact Hinj |].
  split.
  { intros b Hb. rewrite lookup_insert in Hb. case_decide; [subst; by apply Hnext |].
    by apply Hnext. }
  split; [| exact Hnd].
  intros b Hb. apply Hfreed in Hb as [Hb1 Hb2]. split; [| done].
  rewrite lookup_insert_ne; [done |]. intros ->. rewrite Hb1 in Hd. by destruct Hd.
Qed.

Lemma discarded_heap w : world_ok w -> heap (discarded w) = heap w.
Proof.
  intros Hok. destruct (world_ok_new w Hok) as (_ & Hfresh & _).
  unfold discarded. simpl. rewrite delete_insert_eq. by apply delete_id.
Qed.

Lemma world_ok_discarded w : world_ok w -> world_ok (discarded w).
Proof.
  intros Hok. pose proof (discarded_heap w Hok) as Hheap.
  destruct (world_ok_new w Hok) as (_ & Hfresh & _ & Hnf).
  destruct Hok as (Hlive & Hinj & Hnext & Hfreed & Hnd).
  unfold world_ok. rewrite Hheap. unfold discarded. simpl.
  split; [exact Hlive |]. split; [exact Hinj |].
  split; [intros a Ha; apply Hnext in Ha; lia |].
  split.
  - intros a Ha. apply elem_of_app in Ha as [Ha | Ha].
    + apply Hfreed in Ha as [Ha1 Ha2]. split; [done | lia].
    + apply list_elem_of_singleton in Ha. subst a. split; [done | lia].
  - apply NoDup_app. split; [done |]. split; [| apply NoDup_singleton].
    intros a Ha Ha'. apply list_elem_of_singleton in Ha'. by subst a.
Qed.

Lemma world_ok_published w a : world_ok w -> world_ok (fst (published w a)).
Proof.
  intros Hok. destruct (world_ok_new w Hok) as (Hok1 & Hfresh & Hnew & _).
  unfold published. apply world_ok_AddDictionary.
  - apply world_ok_set_live; [exact Hok1 |]. simpl. rewrite lookup_insert_eq. eauto.
  - simpl. rewrite lookup_insert_eq. eauto.
  - exact Hnew.
Qed.

Lemma world_ok_Build w info : world_ok w -> world_ok (fst (Build w info)).
Proof.
  intros Hok.
  destruct (Build_cases w info) as [(k & msg & ->) | (ka & rest & raw & vs & _ & _ & _ & H)];
    [done |].
  destruct (Darts.build _ vs); rewrite H; simpl;
    auto using world_ok_published, world_ok_discarded.
Qed.

Lemma world_ok_CreateDictionary w info :
  world_ok w -> world_ok (fst (CreateDictionary w info)).
Proof.
  intros Hok. destruct (world_ok_new w Hok) as (Hok1 & Hfresh & Hnew & _).
  unfold CreateDictionary.
  pose proof (world_ok_AddDictionary (fst (new_DartsDict w)) (next_addr w) Hok1) as H.
  simpl in *. destruct (AddDictionary _ _) as [w2 handle]. simpl in *.
  apply H; [rewrite lookup_insert_eq; eauto | exact Hnew].
Qed.

Lemma world_ok_DestroyDictionary w info :
  world_ok w -> world_ok (fst (DestroyDictionary w info)).
Proof.
  intros Hok. unfold DestroyDictionary.
  destruct info as [| [| | | n | | |] rest]; try done. simpl.
  apply world_ok_RemoveDictionary; [apply Uint32Value_nonneg | done].
Qed.

Lemma world_ok_LoadDictionary w info :
  world_ok w -> world_ok (fst (LoadDictionary w info)).
Proof.
  intros Hok. unfold LoadDictionary.
  destruct info as [| [| | | n | | |] [| [| | | | p | |] rest]]; try done.
  destruct (GetDictionaryFromHandle w (Uint32Value n)) as [dict |] eqn:E; [| done].
  destruct (darts_open w (c_str p)); try done. simpl.
  apply world_ok_set_live; [done |].
  apply GetDictionaryFromHandle_lookup in E; [| apply Uint32Value_nonneg].
  destruct Hok as (Hlive & _). by eapply Hlive.
Qed.

Lemma world_ok_SaveDictionary w info :
  world_ok w -> world_ok (fst (SaveDictionary w info)).
Proof.
  intros Hok. unfold SaveDictionary.
  destruct info as [| [| | | n | | |] [| [| | | | p | |] rest]]; try done.
  destruct (GetDictionaryFromHandle w (Uint32Value n)) as [dict |]; [| done].
  unfold darts_save. by case_bool_decide.
Qed.

Lemma world_ok_Traverse w info :
  world_ok w -> world_ok (fst (Traverse w info)).
Proof.
  intros Hok. unfold Traverse.
  destruct info as [| [| | | n | | |] [| [| | | | p | |] [| [| | | | | | f] rest]]];
    try done.
  by destruct (GetDictionaryFromHandle w (Uint32Value n)) as [dict |].
Qed.

Lemma ExactMatchSearch_world w info : fst (ExactMatchSearch w info) = w.
Proof.
  unfold ExactMatchSearch.
  destruct info as [| [| | | n | | |] [| [| | | | p | |] rest]]; try done.
  by destruct (GetDictionaryFromHandle w (Uint32Value n)).
Qed.

Lemma CommonPrefixSearch_world w info : fst (CommonPrefixSearch w info) = w.
Proof.
  unfold CommonPrefixSearch.
  destruct info as [| [| | | n | | |] [| [| | | | p | |] rest]]; try done.
  by destruct (GetDictionaryFromHandle w (Uint32Value n)).
Qed.

Lemma Size_world w info : fst (Size w info) = w.
Proof.
  unfold Size. destruct info as [| [| | | n | | |] rest]; try done.
  by destruct (GetDictionaryFromHandle w (Uint32Value n)).
Qed.

(** Every state the process can be in keeps the ownership discipline. *)
Lemma reachable_world_ok w : reachable w -> world_ok w.
Proof.
  induction 1 as [fs ro | w name f info Hr IH Hin].
  - unfold world_ok. simpl.
    split; [intros h a H; by rewrite lookup_nil in H |].
    split; [intros h1 h2 a H; by rewrite lookup_nil in H |].
    split; [intros a [x H]; by rewrite lookup_empty in H |].
    split; [intros a H; by apply elem_of_nil in H | constructor].
  - apply elem_of_exports in Hin.
    destruct Hin as [-> | [-> | [-> | [-> | [-> | [-> | [-> | [-> | ->]]]]]]]].
    + by apply world_ok_CreateDictionary.
    + by apply world_ok_DestroyDictionary.
    + by apply world_ok_LoadDictionary.
    + by apply world_ok_SaveDictionary.
    + by rewrite ExactMatchSearch_world.
    + by rewrite CommonPrefixSearch_world.
    + by apply world_ok_Traverse.
    + by rewrite Size_world.
    + by apply world_ok_Build.
Qed.

Lemma later_reachable allowed w w' : reachable w -> later allowed w w' -> reachable w'.
Proof.
  intros Hr. induction 1 as [| w' name f info _ IH Hin _]; [done |].
  by apply (reachable_call w' name f).
Qed.

Lemma GetDictionaryFromHandle_table w w' h :
  g_dictionaries w' = g_dictionaries w ->
  GetDictionaryFromHandle w' h = GetDictionaryFromHandle w h.
Proof. intros H. unfold GetDictionaryFromHandle. by rewrite H. Qed.

Lemma GetDictionaryFromHandle_in_table w h a :
  GetDictionaryFromHandle w h = Some a ->
  exists k, g_dictionaries w !! k = Some (Some a).
Proof.
  unfold GetDictionaryFromHandle.
  destruct (h <? _); [| discriminate].
  destruct (g_dictionaries w !! Z.to_nat h) as [[d |] |] eqn:E; try discriminate.
  intros H. inversion H; subst. eauto.
Qed.

Lemma freed_not_in_table w a h :
  world_ok w -> a ∈ freed w -> GetDictionaryFromHandle w h <> Some a.
Proof.
  intros (Hlive & _ & _ & Hfreed & _) Hin Hget.
  apply GetDictionaryFromHandle_in_table in Hget as [k Hk].
  apply Hlive in Hk as [x Hx]. apply Hfreed in Hin as [Hnone _]. congruence.
Qed.

Lemma RemoveDictionary_freed w h a : a ∈ freed w -> a ∈ freed (RemoveDictionary w h).
Proof.
  intros Hin. unfold RemoveDictionary.
  destruct (h <? _); [| done].
  destruct (g_dictionaries w !! Z.to_nat h) as [[d |] |]; try done.
  simpl. apply elem_of_app. by left.
Qed.

Lemma AddDictionary_freed w dict : freed (fst (AddDictionary w dict)) = freed w.
Proof. unfold AddDictionary. by destruct (find_empty_slot _ _). Qed.

Lemma export_freed name f w info a :
  (name, f) ∈ exports -> a ∈ freed w -> a ∈ freed (fst (f w info)).
Proof.
  intros Hin Ha. apply elem_of_exports in Hin.
  destruct Hin as [-> | [-> | [-> | [-> | [-> | [-> | [-> | [-> | ->]]]]]]]].
  - unfold CreateDictionary.
    pose proof (AddDictionary_freed (fst (new_DartsDict w)) (next_addr w)) as H.
    simpl in *. destruct (AddDictionary _ _). simpl in *. by rewrite H.
  - unfold DestroyDictionary.
    destruct info as [| [| | | n | | |] rest]; try done.
    simpl. by apply RemoveDictionary_freed.
  - unfold LoadDictionary.
    destruct info as [| [| | | n | | |] [| [| | | | p | |] rest]]; try done.
    destruct (GetDictionaryFromHandle w (Uint32Value n)); [| done].
    by destruct (darts_open w (c_str p)).
  - unfold SaveDictionary.
    destruct info as [| [| | | n | | |] [| [| | | | p | |] rest]]; try done.
    destruct (GetDictionaryFromHandle w (Uint32Value n)); [| done].
    unfold darts_save. by case_bool_decide.
  - by rewrite ExactMatchSearch_world.
  - by rewrite CommonPrefixSearch_world.
  - unfold Traverse.
    destruct info as [| [| | | n | | |] [| [| | | | p | |] [| [| | | | | | g] rest]]];
      try done.
    by destruct (GetDictionaryFromHandle w (Uint32Value n)).
  - by rewrite Size_world.
  - destruct (Build_cases w info)
      as [(k & msg & ->) | (ka & rest & raw & vs & _ & _ & _ & H)]; [done |].
    destruct (Darts.build _ vs); rewrite H; simpl;
      try (apply elem_of_app; by left).
    unfold published. by rewrite AddDictionary_freed.
Qed.





(** * Sorting and deduplication of the keys *)

Lemma string_compare_refl a : String_as_OT.compare a a = Eq.
Proof.
  destruct (String_as_OT.compare_spec a a) as [_ | H | H]; [done | |];
    by apply string_lt_irrefl in H.
Qed.

Lemma string_le_cases a b : string_le a b <-> a = b \/ string_lt a b.
Proof.
  unfold string_le, string_lt.
  destruct (String_as_OT.compare_spec a b) as [H | H | H].
  - split; [by left | discriminate].
  - split; [by right | discriminate].
  - split; [intros X; by destruct X |].
    intros [-> | X]; [by apply string_lt_irrefl in H | discriminate].
Qed.

#[local] Instance string_le_total : Total string_le.
Proof.
  intros a b. unfold string_le.
  destruct (String_as_OT.compare_spec a b) as [H | H | H].
  - left. congruence.
  - left. congruence.
  - right. unfold String_as_OT.lt in H. congruence.
Qed.

#[local] Instance string_le_trans : Transitive string_le.
Proof.
  intros a b c Hab Hbc. apply string_le_cases in Hab, Hbc. apply string_le_cases.
  destruct Hab as [-> | Hab]; [done |].
  destruct Hbc as [<- | Hbc]; [by right |].
  right. by apply (string_lt_trans a b c).
Qed.

Lemma unique_head a rest : exists rest', unique (a :: rest) = a :: rest'.
Proof.
  revert a. induction rest as [| b rest IH]; intros a; simpl; [eauto |].
  destruct (String.eqb_spec a b) as [-> | Hne]; [apply IH | eauto].
Qed.

Lemma unique_elem_of keys k : k ∈ unique keys <-> k ∈ keys.
Proof.
  induction keys as [| a rest IH]; [done |].
  simpl. destruct rest as [| b rest']; [done |].
  destruct (String.eqb_spec a b) as [-> | Hne].
  - rewrite IH. rewrite !elem_of_cons. tauto.
  - rewrite (elem_of_cons (unique (b :: rest'))), IH.
    rewrite !elem_of_cons. tauto.
Qed.

Lemma unique_sorted keys : Sorted string_le keys -> Sorted string_lt (unique keys).
Proof.
  induction 1 as [| a rest Hs IH Hhd]; [constructor |].
  simpl. destruct rest as [| b rest']; [repeat constructor |].
  apply HdRel_inv in Hhd.
  destruct (String.eqb_spec a b) as [-> | Hne]; [exact IH |].
  constructor; [exact IH |].
  destruct (unique_head b rest') as [rest'' ->]. constructor.
  apply string_le_cases in Hhd as [-> | Hlt]; done.
Qed.

(** [normalized_keys] is the strictly ascending list of the distinct raw
    keys. *)
Lemma normalized_keys_sorted keys : Sorted string_lt (normalized_keys keys).
Proof. apply unique_sorted, Sorted_merge_sort. apply string_le_total. Qed.

Lemma normalized_keys_elem_of keys k : k ∈ normalized_keys keys <-> k ∈ keys.
Proof.
  unfold normalized_keys, sort_keys. rewrite unique_elem_of.
  by rewrite (merge_sort_Permutation string_le keys).
Qed.

Lemma commonPrefixSearch_from_length a key maxResults : forall s acc,
  (length acc <= maxResults)%nat ->
  (length (Darts.commonPrefixSearch_from a s key maxResults acc) <= maxResults)%nat.
Proof.
  induction key as [| c key IH]; intros s acc Hacc; simpl.
  - destruct (Darts.terminal_value a s); [| done].
    destruct (length acc <? maxResults)%nat eqn:E; [| done].
    apply Nat.ltb_lt in E. rewrite length_app. simpl. lia.
  - destruct (Darts.terminal_value a s).
    + destruct (length acc <? maxResults)%nat eqn:E; [| done].
      apply Nat.ltb_lt in E.
      assert (length (acc ++ [z]) <= maxResults)%nat
        by (rewrite length_app; simpl; lia).
      destruct (Darts.step a s (byte_val c)); [by apply IH | done].
    + destruct (Darts.step a s (byte_val c)); [by apply IH | done].
Qed.

(** * Stepping [traverse] *)

Lemma traverse_stuck a key s p :
  fst (fst (Darts.traverse a key s p)) = Darts.NoTransition ->
  Darts.traverse a key s p = (Darts.NoTransition, s, p).
Proof.
  unfold Darts.traverse.
  destruct (if 0 <=? p then get (Z.to_nat p) key else None) as [c |]; [| done].
  destruct (Darts.step a s (byte_val c)) as [t |]; [| done].
  simpl. by destruct (Darts.terminal_value a t).
Qed.





Lemma build_values_ok keys values a :
  Darts.build keys values = Darts.BuildOk a -> forallb Darts.value_ok values = true.
Proof.
  unfold Darts.build. intros H.
  destruct keys as [| k0 keys0] eqn:Ek; [discriminate |]. rewrite <- Ek in *.
  destruct (Darts.strictly_sorted keys); simpl in H; [| discriminate].
  destruct (existsb _ keys); [discriminate |].
  by destruct (forallb Darts.value_ok values).
Qed.

(** * Published dictionaries *)

Lemma c_str_nul_free s : nul_free (c_str s).
Proof.
  induction s as [| c s IH]; simpl; [done |].
  destruct (byte_val c =? 0) eqn:E; simpl; [done |].
  apply Z.eqb_neq in E. by split.
Qed.

Lemma unique_length keys : (length (unique keys) <= length keys)%nat.
Proof.
  induction keys as [| a rest IH]; simpl; [done |].
  destruct rest as [| b rest']; [done |].
  destruct (String.eqb a b); simpl in *; lia.
Qed.

Lemma normalized_keys_length keys :
  (length (normalized_keys keys) <= length keys)%nat.
Proof.
  unfold normalized_keys, sort_keys.
  etrans; [apply unique_length |].
  by rewrite (Permutation_length (merge_sort_Permutation string_le keys)).
Qed.

Lemma strings_of_length l ss : strings_of l = Some ss -> length ss = length l.
Proof.
  revert ss. induction l as [| v l IH]; intros ss H; simpl in H.
  - by inversion H.
  - destruct v; try discriminate.
    destruct (strings_of l) as [ss' |]; [| discriminate].
    inversion H; subst. simpl. f_equal. by apply IH.
Qed.


Lemma index_values_lookup n i :
  (i < n)%nat -> index_values n !! i = Some (Int.to_int32 (Z.of_nat i)).
Proof.
  intros Hi. unfold index_values.
  change (map ?f ?l) with (f <$> l).
  by rewrite list_lookup_fmap, lookup_seq_lt.
Qed.

Lemma published_lookup w a :
  Z.of_nat (length (g_dictionaries w)) < 2 ^ 32 ->
  0 <= snd (published w a) < 2 ^ 32 /\
  GetDictionaryFromHandle (fst (published w a)) (snd (published w a)) =
    Some (next_addr w) /\
  heap (fst (published w a)) !! next_addr w = Some a.
Proof.
  intros Hlen. unfold published.
  set (w2 := set_heap _ _).
  destruct (AddDictionary_spec w2 (next_addr w))
    as (i & Hh & Hle & _ & _ & Hi & _ & Hheap & _).
  assert (Hg : g_dictionaries w2 = g_dictionaries w) by done.
  rewrite Hg in *. rewrite (Hh Hlen).
  split; [lia |]. split.
  - rewrite GetDictionaryFromHandle_nat. by rewrite Hi.
  - rewrite Hheap. unfold w2. simpl. apply lookup_insert_eq.
Qed.

Lemma ExactMatchSearch_published w a key :
  Z.of_nat (length (g_dictionaries w)) < 2 ^ 32 ->
  ExactMatchSearch (fst (published w a))
                   [JNumber (snd (published w a)); JString key] =
  (fst (published w a),
   ret (JNumber (search_code (Darts.exactMatchSearch a (c_str key))))).
Proof.
  intros Hlen. destruct (published_lookup w a Hlen) as (Hr & Hget & Hheap).
  unfold ExactMatchSearch, Uint32Value.
  rewrite to_uint32_small by done. rewrite Hget.
  unfold deref. by rewrite Hheap.
Qed.

(** What a successful [Build] has done. *)
Lemma Build_success w keys_array rest w' h :
  Build w (JArray keys_array :: rest) = (w', ret (JNumber h)) ->
  exists raw_keys values a,
    strings_of keys_array = Some raw_keys /\
    values_chosen rest (length (normalized_keys raw_keys)) values /\
    Darts.build (map c_str (normalized_keys raw_keys)) values = Darts.BuildOk a /\
    w' = fst (published w a) /\ h = snd (published w a).
Proof.
  intros HB.
  destruct (Build_cases w (JArray keys_array :: rest))
    as [(k & msg & H) | (ka & rest0 & raw & vs & Hinfo & Hs & Hv & H)];
    [rewrite H in HB; discriminate |].
  inversion Hinfo; subst ka rest0; clear Hinfo.
  exists raw, vs.
  destruct (Darts.build _ vs) as [a | |] eqn:Eb;
    rewrite H in HB; try discriminate.
  exists a. inversion HB. done.
Qed.

Lemma published_key_value w a keys values i key v :
  Z.of_nat (length (g_dictionaries w)) < 2 ^ 32 ->
  Darts.build (map c_str keys) values = Darts.BuildOk a ->
  keys !! i = Some key -> values !! i = Some v ->
  ExactMatchSearch (fst (published w a))
                   [JNumber (snd (published w a)); JString key] =
  (fst (published w a), ret (JNumber v)).
Proof.
  intros Hlen Hb Hk Hv. rewrite ExactMatchSearch_published by done.
  rewrite (build_exact _ _ _ i (c_str key) v Hb); [done | | | done].
  - apply Forall_forall. intros k Hin.
    apply list_elem_of_fmap in Hin as (k' & -> & _). apply c_str_nul_free.
  - change (map ?f ?l) with (f <$> l). by rewrite list_lookup_fmap, Hk.
Qed.

(** The [while] loop of [Traverse] never needs more turns than the key
    has bytes: more fuel changes nothing. *)
Lemma traverse_key_pos a key s p :
  snd (Darts.traverse a key s p) = p \/ snd (Darts.traverse a key s p) = p + 1.
Proof.
  unfold Darts.traverse.
  destruct (if 0 <=? p then get (Z.to_nat p) key else None) as [c |]; [| by left].
  destruct (Darts.step a s (byte_val c)) as [t |]; [by right | by left].
Qed.

Lemma traverse_loop_fuel dict key callback : forall fuel fuel' node_pos key_pos log,
  Z.of_nat (String.length key) - key_pos <= Z.of_nat fuel ->
  (fuel <= fuel')%nat ->
  traverse_loop fuel' dict key callback node_pos key_pos log =
  traverse_loop fuel dict key callback node_pos key_pos log.
Proof.
  induction fuel as [| fuel IH]; intros fuel' node_pos key_pos log Hlen Hle.
  - destruct fuel' as [| fuel']; [done |]. simpl.
    destruct (key_pos <? Z.of_nat (String.length key)) eqn:E; [| done].
    apply Z.ltb_lt in E. lia.
  - destruct fuel' as [| fuel']; [lia |]. simpl.
    destruct (key_pos <? Z.of_nat (String.length key)) eqn:E; [| done].
    pose proof (traverse_key_pos dict (c_str (str_drop (Z.to_nat key_pos) key))
                  node_pos key_pos) as Hpos.
    destruct (Darts.traverse dict _ node_pos key_pos) as [[o node_pos'] key_pos'].
    simpl in Hpos.
    destruct (negb (is_false _) && negb (outcome_code o <? 0)); [| done].
    apply IH; lia.
Qed.

(** In every state of the process an instance has one handle only. *)
Lemma reachable_handles_injective w h1 h2 a :
  reachable w -> 0 <= h1 -> 0 <= h2 ->
  GetDictionaryFromHandle w h1 = Some a -> GetDictionaryFromHandle w h2 = Some a ->
  h1 = h2.
Proof.
  intros Hr H1 H2 Hg1 Hg2.
  destruct (reachable_world_ok w Hr) as (_ & Hinj & _).
  apply GetDictionaryFromHandle_lookup in Hg1, Hg2; try done.
  pose proof (Hinj _ _ _ Hg1 Hg2). lia.
Qed.

(** * The claims *)

(** Claim C1, as the code has it: building from the keys ["a", "a", "b"]
    with the values [1, 2, 3] fails.  [Build] drops the duplicate, holds
    the three values against the two keys left and throws "Values array
    length must match keys array length"; it returns null and leaves the
    state as it was. *)
Theorem Build_duplicate_keys_rejected w :
  Build w [js_strings ["a"; "a"; "b"]%string; js_numbers [1; 2; 3]] =
  (w, throw Error "Values array length must match keys array length" JNull).
Proof. reflexivity. Qed.

(** Without a values array the same keys are accepted: the duplicate is
    dropped and the ranks are the values. *)
Example Build_duplicate_keys_without_values :
  let r := Build initial_world [js_strings ["a"; "a"; "b"]%string] in
  snd r = ret (JNumber 0) /\
  returned (snd (ExactMatchSearch (fst r) [JNumber 0; JString "a"])) = JNumber 0 /\
  returned (snd (ExactMatchSearch (fst r) [JNumber 0; JString "b"])) = JNumber 1.
Proof. by vm_compute. Qed.

(** With as many values as distinct keys the build goes through. *)
Example Build_duplicate_keys_two_values :
  let r := Build initial_world
             [js_strings ["a"; "a"; "b"]%string; js_numbers [1; 2]] in
  snd r = ret (JNumber 0) /\
  returned (snd (ExactMatchSearch (fst r) [JNumber 0; JString "a"])) = JNumber 1 /\
  returned (snd (ExactMatchSearch (fst r) [JNumber 0; JString "b"])) = JNumber 2.
Proof. by vm_compute. Qed.



(** On the example both sides are the value 2. *)
Example traverse_steps_example :
  final_outcome example_array "ab" = Darts.Terminal 2 /\
  Darts.exactMatchSearch example_array "ab" = Darts.Found 2.
Proof. by vm_compute. Qed.

(** The loop of [Traverse] in dictionary.cpp is not this stepping: it
    hands the core both the advanced pointer [key.c_str() + key_pos] and
    [key_pos], and raises [key_pos] once more after each call.  With the
    single-step [traverse] modelled from the spec, its second call on
    "abc" finds no byte to read. *)
Example Traverse_callbacks_example :
  callbacks (fst (Traverse example_world
                    [JNumber 0; JString "abc"; JFunction (fun _ => JUndefined)])) =
  [mkResultObj 98 1 1; mkResultObj 98 2 (-2)].
Proof. by vm_compute. Qed.

(** Claim C3 fails as stated: on the key set "a" -> 1, "ab" -> 2,
    "abc" -> 3 the call commonPrefixSearch(handle, "abc") with a further
    argument 1 does not return [1]; the argument is not read, and the
    result is [1, 2, 3]. *)
Lemma CommonPrefixSearch_ignores_bound :
  returned (snd (CommonPrefixSearch example_world
                   [JNumber 0; JString "abc"; JNumber 1])) <> js_numbers [1].
Proof. vm_compute. discriminate. Qed.

(** Claim C3, amended: [CommonPrefixSearch] takes no bound from its
    caller; it hands the fixed bound [MAX_RESULTS] = 100 to the core, so
    every array it returns has at most 100 entries, and on the example
    commonPrefixSearch(handle, "abc") returns [1, 2, 3] whatever further
    arguments follow.  The core keeps to the bound it is given, without
    an error: with the bound 1 it returns [1] there. *)
Theorem CommonPrefixSearch_fixed_bound w info :
  pending (snd (CommonPrefixSearch w info)) = None ->
  (exists results,
     returned (snd (CommonPrefixSearch w info)) = js_numbers results /\
     (length results <= MAX_RESULTS)%nat) /\
  (forall extra,
     CommonPrefixSearch example_world (JNumber 0 :: JString "abc" :: extra) =
     (example_world, ret (js_numbers [1; 2; 3]))) /\
  (forall a key maxResults,
     (length (Darts.commonPrefixSearch a key maxResults) <= maxResults)%nat) /\
  Darts.commonPrefixSearch example_array "abc" 1 = [1].
Proof.
  intros Hp.
  assert (Hcore : forall a key maxResults,
            (length (Darts.commonPrefixSearch a key maxResults) <= maxResults)%nat).
  { intros a key maxResults. unfold Darts.commonPrefixSearch.
    apply commonPrefixSearch_from_length. simpl. lia. }
  split; [| split; [intros extra; by vm_compute | split; [exact Hcore | by vm_compute]]].
  unfold CommonPrefixSearch in *.
  destruct info as [| [| | | n | | |] [| [| | | | p | |] rest]]; try discriminate.
  destruct (GetDictionaryFromHandle w (Uint32Value n)) as [dict |]; [| discriminate].
  simpl. eexists. split; [reflexivity | apply Hcore].
Qed.

Lemma CommonPrefixSearch_fixed_bound_witness :
  pending (snd (CommonPrefixSearch example_world [JNumber 0; JString "abcd"])) = None /\
  exists results,
    returned (snd (CommonPrefixSearch example_world [JNumber 0; JString "abcd"])) =
      js_numbers results /\
    (length results <= MAX_RESULTS)%nat.
Proof.
  split; [reflexivity |].
  apply (CommonPrefixSearch_fixed_bound example_world [JNumber 0; JString "abcd"]).
  reflexivity.
Defined.

(** Claim C4: when [Build] is called without a values array and
    succeeds, the keys it uses are the raw keys in strictly ascending
    order without duplicates, and [ExactMatchSearch] on the i-th of them
    returns i.  (The handle table and the keys array hold fewer than
    2^32 entries, as [uint32_t] handles and JavaScript arrays do.) *)
Theorem Build_default_values w keys_array rest w' h :
  Z.of_nat (length (g_dictionaries w)) < 2 ^ 32 ->
  Z.of_nat (length keys_array) < 2 ^ 32 ->
  (forall values_array rest', rest <> JArray values_array :: rest') ->
  Build w (JArray keys_array :: rest) = (w', ret (JNumber h)) ->
  exists raw_keys,
    strings_of keys_array = Some raw_keys /\
    Sorted string_lt (normalized_keys raw_keys) /\
    (forall k, k ∈ normalized_keys raw_keys <-> k ∈ raw_keys) /\
    forall (i : nat) key,
      normalized_keys raw_keys !! i = Some key ->
      ExactMatchSearch w' [JNumber h; JString key] =
      (w', ret (JNumber (Z.of_nat i))).
Proof.
  intros Hlen Hjs Hnov HB.
  apply Build_success in HB as (raw & vs & a & Hs & Hv & Hb & -> & ->).
  exists raw. split; [done |].
  split; [apply normalized_keys_sorted |].
  split; [apply normalized_keys_elem_of |].
  intros i key Hk.
  assert (Hvs : vs = index_values (length (normalized_keys raw))).
  { unfold values_chosen in Hv.
    destruct rest as [| [| | | | | va |] rest']; try done.
    by destruct (Hnov va rest'). }
  assert (Hi : (i < length (normalized_keys raw))%nat) by (by eapply lookup_lt_Some).
  pose proof (index_values_lookup _ _ Hi) as Hvi. rewrite <- Hvs in Hvi.
  assert (Hrange : Int.to_int32 (Z.of_nat i) = Z.of_nat i).
  { pose proof (build_values_ok _ _ _ Hb) as Hok.
    rewrite forallb_forall in Hok.
    apply list_elem_of_lookup_2, list_elem_of_In, Hok, value_ok_nonneg in Hvi.
    pose proof (normalized_keys_length raw).
    pose proof (strings_of_length _ _ Hs).
    unfold Int.to_int32 in *.
    destruct (Z_lt_ge_dec (Z.of_nat i) (2 ^ 31)) as [Hlt | Hge].
    - rewrite Z.mod_small; lia.
    - replace (Z.of_nat i + 2 ^ 31) with ((Z.of_nat i - 2 ^ 31) + 1 * 2 ^ 32) in Hvi by lia.
      rewrite Z.mod_add in Hvi by lia. rewrite Z.mod_small in Hvi; lia. }
  rewrite Hrange in Hvi.
  by apply (published_key_value w a (normalized_keys raw) vs i).
Qed.

Lemma Build_default_values_witness :
  Build initial_world [js_strings ["b"; "c"; "a"; "b"]%string] =
    (fst (Build initial_world [js_strings ["b"; "c"; "a"; "b"]%string]),
     ret (JNumber 0)) /\
  exists raw_keys,
    strings_of [JString "b"; JString "c"; JString "a"; JString "b"] = Some raw_keys /\
    Sorted string_lt (normalized_keys raw_keys) /\
    (forall k, k ∈ normalized_keys raw_keys <-> k ∈ raw_keys) /\
    forall (i : nat) key,
      normalized_keys raw_keys !! i = Some key ->
      ExactMatchSearch
        (fst (Build initial_world [js_strings ["b"; "c"; "a"; "b"]%string]))
        [JNumber 0; JString key] =
      (fst (Build initial_world [js_strings ["b"; "c"; "a"; "b"]%string]),
       ret (JNumber (Z.of_nat i))).
Proof.
  assert (HB : Build initial_world [js_strings ["b"; "c"; "a"; "b"]%string] =
               (fst (Build initial_world [js_strings ["b"; "c"; "a"; "b"]%string]),
                ret (JNumber 0))) by (vm_compute; reflexivity).
  split; [exact HB |].
  apply (Build_default_values initial_world
           [JString "b"; JString "c"; JString "a"; JString "b"] []).
  - simpl. lia.
  - simpl. lia.
  - intros va rest' H. discriminate.
  - exact HB.
Defined.

(** The ranks on the example: "a" -> 0, "b" -> 1, "c" -> 2. *)
Example Build_default_values_example :
  let w := fst (Build initial_world [js_strings ["b"; "c"; "a"; "b"]%string]) in
  normalized_keys ["b"; "c"; "a"; "b"]%string = ["a"; "b"; "c"]%string /\
  returned (snd (ExactMatchSearch w [JNumber 0; JString "a"])) = JNumber 0 /\
  returned (snd (ExactMatchSearch w [JNumber 0; JString "b"])) = JNumber 1 /\
  returned (snd (ExactMatchSearch w [JNumber 0; JString "c"])) = JNumber 2.
Proof. by vm_compute. Qed.

(** Claim C5: [Build] with an empty keys array always fails: it throws
    the error "Empty keys array", returns null instead of a handle, and
    leaves the state, and so the handle table, as it was. *)
Theorem Build_empty_keys w rest :
  Build w (JArray [] :: rest) = (w, throw Error "Empty keys array" JNull).
Proof. reflexivity. Qed.

(** Claim C6: [Build] is atomic.  Whenever a call of [Build] fails, for
    whatever reason, the handle table is as before the call, null is
    returned instead of a handle, and the live objects are those of
    before: the dictionary under construction has been deleted. *)
Theorem Build_atomic w info :
  reachable w ->
  pending (snd (Build w info)) <> None ->
  g_dictionaries (fst (Build w info)) = g_dictionaries w /\
  heap (fst (Build w info)) = heap w /\
  returned (snd (Build w info)) = JNull.
Proof.
  intros Hr Hfail. apply reachable_world_ok in Hr.
  destruct (Build_cases w info)
    as [(k & msg & H) | (ka & rest & raw & vs & _ & _ & _ & H)].
  - by rewrite H.
  - destruct (Darts.build _ vs); rewrite H in *; simpl in *.
    + done.
    + split; [done |]. split; [by apply discarded_heap | done].
    + split; [done |]. split; [by apply discarded_heap | done].
Qed.

Lemma example_world_reachable : reachable example_world.
Proof.
  apply (reachable_call _ "build" Build); [apply (reachable_loaded ∅ ∅) |].
  unfold exports. repeat (first [left | right]).
Qed.

Lemma Build_atomic_witness :
  reachable example_world /\
  pending (snd (Build example_world
                  [js_strings ["b"; "a"]%string; js_numbers [-1; 5]])) <> None /\
  g_dictionaries (fst (Build example_world
                         [js_strings ["b"; "a"]%string; js_numbers [-1; 5]])) =
    g_dictionaries example_world /\
  heap (fst (Build example_world
               [js_strings ["b"; "a"]%string; js_numbers [-1; 5]])) =
    heap example_world /\
  returned (snd (Build example_world
                   [js_strings ["b"; "a"]%string; js_numbers [-1; 5]])) = JNull.
Proof.
  assert (Hfail : pending (snd (Build example_world
                    [js_strings ["b"; "a"]%string; js_numbers [-1; 5]])) <> None)
    by (vm_compute; discriminate).
  split; [exact example_world_reachable |]. split; [exact Hfail |].
  exact (Build_atomic example_world _ example_world_reachable Hfail).
Defined.

(** The failure of the core on the example: the object made for the
    build is deleted again. *)
Example Build_core_failure :
  let r := Build example_world [js_strings ["b"; "a"]%string; js_numbers [-1; 5]] in
  snd r = throw Error "Failed to build dictionary" JNull /\
  freed (fst r) = [1%nat] /\ g_dictionaries (fst r) = [Some O].
Proof. by vm_compute. Qed.

(** A handle beyond the table was never allocated. *)
Lemma GetDictionaryFromHandle_beyond w h :
  Z.of_nat (length (g_dictionaries w)) <= h -> GetDictionaryFromHandle w h = None.
Proof.
  intros Hh. unfold GetDictionaryFromHandle.
  destruct (h <? _) eqn:E; [| done]. apply Z.ltb_lt in E. lia.
Qed.

(** A handle just disposed refers to nothing. *)
Lemma DestroyDictionary_dead w n :
  GetDictionaryFromHandle (fst (DestroyDictionary w [JNumber n])) (Uint32Value n) = None.
Proof.
  simpl. pose proof (Uint32Value_nonneg n) as [Hn _].
  destruct (GetDictionaryFromHandle w (Uint32Value n)) as [a |] eqn:E.
  - rewrite (RemoveDictionary_live _ _ _ Hn E).
    unfold GetDictionaryFromHandle. simpl.
    destruct (_ <? _) eqn:E'; [| done].
    rewrite list_lookup_insert_eq; [done |].
    apply Z.ltb_lt in E'. rewrite length_insert in E'. lia.
  - by rewrite RemoveDictionary_dead.
Qed.

(** Claim C7: for every handle that refers to no live dictionary, each
    of load, save, exactMatchSearch, commonPrefixSearch, traverse and
    size, called with arguments of the expected types, throws "Invalid
    dictionary handle", returns null and leaves the whole state, and so
    the handle table and every live instance, unchanged.  A handle
    beyond the table (never allocated) and a handle just disposed are
    such handles. *)
Theorem invalid_handle_rejected w n :
  GetDictionaryFromHandle w (Uint32Value n) = None ->
  (forall (s : string) (callback : ResultObj -> JsValue) (rest : list JsValue),
     LoadDictionary w (JNumber n :: JString s :: rest) = (w, invalid_handle) /\
     SaveDictionary w (JNumber n :: JString s :: rest) = (w, invalid_handle) /\
     ExactMatchSearch w (JNumber n :: JString s :: rest) = (w, invalid_handle) /\
     CommonPrefixSearch w (JNumber n :: JString s :: rest) = (w, invalid_handle) /\
     Traverse w (JNumber n :: JString s :: JFunction callback :: rest) =
       (w, invalid_handle) /\
     Size w (JNumber n :: rest) = (w, invalid_handle)) /\
  (forall w0 h, Z.of_nat (length (g_dictionaries w0)) <= h ->
                GetDictionaryFromHandle w0 h = None) /\
  (forall w0 m,
     GetDictionaryFromHandle (fst (DestroyDictionary w0 [JNumber m]))
                             (Uint32Value m) = None).
Proof.
  intros H.
  split; [| split; [apply GetDictionaryFromHandle_beyond | apply DestroyDictionary_dead]].
  intros s callback rest.
  unfold LoadDictionary, SaveDictionary, ExactMatchSearch, CommonPrefixSearch,
    Traverse, Size.
  rewrite H. done.
Qed.

Lemma invalid_handle_rejected_witness :
  GetDictionaryFromHandle example_world (Uint32Value 7) = None /\
  LoadDictionary example_world [JNumber 7; JString "dict.bin"] =
    (example_world, invalid_handle) /\
  SaveDictionary example_world [JNumber 7; JString "dict.bin"] =
    (example_world, invalid_handle) /\
  ExactMatchSearch example_world [JNumber 7; JString "dict.bin"] =
    (example_world, invalid_handle) /\
  CommonPrefixSearch example_world [JNumber 7; JString "dict.bin"] =
    (example_world, invalid_handle) /\
  Traverse example_world
    [JNumber 7; JString "dict.bin"; JFunction (fun _ => JUndefined)] =
    (example_world, invalid_handle) /\
  Size example_world [JNumber 7] = (example_world, invalid_handle).
Proof.
  assert (H : GetDictionaryFromHandle example_world (Uint32Value 7) = None)
    by (vm_compute; reflexivity).
  split; [exact H |].
  exact (proj1 (invalid_handle_rejected example_world 7 H) "dict.bin"
           (fun _ => JUndefined) []).
Defined.




(** Destroying the only dictionary twice, on the example. *)
Example DestroyDictionary_twice :
  let w1 := fst (DestroyDictionary example_world [JNumber 0]) in
  let w2 := fst (DestroyDictionary w1 [JNumber 0]) in
  g_dictionaries w1 = [None] /\ freed w1 = [O] /\ heap w1 = ∅ /\ w2 = w1.
Proof. by vm_compute. Qed.



(** The caller paired "b" with 10 and "a" with 20; the dictionary
    answers the other way round. *)
Example Build_unsorted_keys_swap_values :
  let w := fst (Build initial_world [js_strings ["b"; "a"]%string; js_numbers [10; 20]]) in
  returned (snd (ExactMatchSearch w [JNumber 0; JString "b"])) = JNumber 20 /\
  returned (snd (ExactMatchSearch w [JNumber 0; JString "a"])) = JNumber 10.
Proof. by vm_compute. Qed.

(** Claim C10: in every state of the handle table (of fewer than 2^32
    slots) [AddDictionary] stores the instance in the empty slot of
    smallest index, appends a slot only when there is no empty one, and
    returns that index [h]; [GetDictionaryFromHandle] of [h] then
    returns the instance, and every instance that was live keeps its
    own handle, different from [h]. *)
Theorem AddDictionary_roundtrip w dict :
  Z.of_nat (length (g_dictionaries w)) < 2 ^ 32 ->
  let w' := fst (AddDictionary w dict) in
  let h := snd (AddDictionary w dict) in
  (0 <= h <= Z.of_nat (length (g_dictionaries w)) /\
   (forall h0, 0 <= h0 < h -> GetDictionaryFromHandle w h0 <> None) /\
   (h < Z.of_nat (length (g_dictionaries w)) ->
    g_dictionaries w !! Z.to_nat h = Some None /\
    g_dictionaries w' = <[ Z.to_nat h := Some dict ]> (g_dictionaries w)) /\
   (h = Z.of_nat (length (g_dictionaries w)) ->
    g_dictionaries w' = g_dictionaries w ++ [Some dict]) /\
   GetDictionaryFromHandle w' h = Some dict /\
   (forall h0 d0, 0 <= h0 -> GetDictionaryFromHandle w h0 = Some d0 ->
                  h0 <> h /\ GetDictionaryFromHandle w' h0 = Some d0)).
Proof.
  intros Hlen w' h.
  destruct (AddDictionary_spec w dict)
    as (i & Hh & Hle & Hbefore & Hcase & Hi & Hother & _).
  specialize (Hh Hlen). fold h in Hh. fold w' in Hcase, Hi, Hother.
  rewrite Hh, Nat2Z.id.
  assert (Hget : GetDictionaryFromHandle w' (Z.of_nat i) = Some dict)
    by (by rewrite GetDictionaryFromHandle_nat, Hi).
  split; [lia |]. split.
  { intros h0 Hh0. rewrite <- (Z2Nat.id h0) by lia.
    rewrite GetDictionaryFromHandle_nat.
    destruct (Hbefore (Z.to_nat h0)) as [a Ha]; [lia |]. by rewrite Ha. }
  split.
  { intros Hlt. destruct Hcase as [Hc | (Hc & _)]; [done | lia]. }
  split.
  { intros Heq. destruct Hcase as [(Hc & _) | (_ & _ & Hc)]; [| done].
    apply lookup_lt_Some in Hc. lia. }
  split; [exact Hget |].
  intros h0 d0 Hh0 Hd0.
  assert (Hk : h0 = Z.of_nat (Z.to_nat h0)) by lia.
  revert Hk Hd0. generalize (Z.to_nat h0). intros k -> Hd0.
  rewrite GetDictionaryFromHandle_nat in *.
  assert (Hne : k <> i).
  { intros ->. destruct Hcase as [(Hc & _) | (-> & _)].
    - by rewrite Hc in Hd0.
    - by rewrite lookup_ge_None_2 in Hd0. }
  split; [lia |]. by rewrite Hother.
Qed.

Lemma AddDictionary_roundtrip_witness :
  let w := fst (DestroyDictionary
                  (fst (CreateDictionary example_world [])) [JNumber 0]) in
  Z.of_nat (length (g_dictionaries w)) < 2 ^ 32 /\
  let w' := fst (AddDictionary w 5%nat) in
  let h := snd (AddDictionary w 5%nat) in
  (0 <= h <= Z.of_nat (length (g_dictionaries w)) /\
   (forall h0, 0 <= h0 < h -> GetDictionaryFromHandle w h0 <> None) /\
   (h < Z.of_nat (length (g_dictionaries w)) ->
    g_dictionaries w !! Z.to_nat h = Some None /\
    g_dictionaries w' = <[ Z.to_nat h := Some 5%nat ]> (g_dictionaries w)) /\
   (h = Z.of_nat (length (g_dictionaries w)) ->
    g_dictionaries w' = g_dictionaries w ++ [Some 5%nat]) /\
   GetDictionaryFromHandle w' h = Some 5%nat /\
   (forall h0 d0, 0 <= h0 -> GetDictionaryFromHandle w h0 = Some d0 ->
                  h0 <> h /\ GetDictionaryFromHandle w' h0 = Some d0)).
Proof.
  intros w.
  assert (Hlen : Z.of_nat (length (g_dictionaries w)) < 2 ^ 32)
    by (vm_compute; reflexivity).
  split; [exact Hlen |].
  exact (AddDictionary_roundtrip w 5%nat Hlen).
Defined.

(** A freed slot is taken before the table grows. *)
Example AddDictionary_reuses_slot :
  let w := fst (DestroyDictionary
                  (fst (CreateDictionary example_world [])) [JNumber 0]) in
  g_dictionaries w = [None; Some 1%nat] /\
  snd (AddDictionary w 5%nat) = 0 /\
  g_dictionaries (fst (AddDictionary w 5%nat)) = [Some 5%nat; Some 1%nat] /\
  snd (AddDictionary (fst (AddDictionary w 5%nat)) 6%nat) = 2.
Proof. by vm_compute. Qed.

(** * Further properties of the binding *)

(** * Arguments of [Build] *)

Lemma strings_of_js_strings raw : strings_of (map JString raw) = Some raw.
Proof. induction raw as [| s raw IH]; simpl; [done | by rewrite IH]. Qed.

Lemma strings_of_None l v :
  v ∈ l -> (forall s, v <> JString s) -> strings_of l = None.
Proof.
  induction l as [| x l IH]; intros Hin Hv; [by apply elem_of_nil in Hin |].
  apply elem_of_cons in Hin as [<- | Hin].
  - destruct v; try done. by destruct (Hv s).
  - simpl. destruct x; try done. by rewrite (IH Hin Hv).
Qed.

Lemma int32s_of_None l v :
  v ∈ l -> (forall z, v <> JNumber z) -> int32s_of l = None.
Proof.
  induction l as [| x l IH]; intros Hin Hv; [by apply elem_of_nil in Hin |].
  apply elem_of_cons in Hin as [<- | Hin].
  - destruct v; try done. by destruct (Hv z).
  - simpl. destruct x; try done. by rewrite (IH Hin Hv).
Qed.

Lemma Sorted_string_lt_NoDup keys : Sorted string_lt keys -> NoDup keys.
Proof.
  intros H. apply Sorted_StronglySorted in H; [| exact string_lt_trans].
  induction H as [| a l Hl IH Hall]; [constructor |].
  apply NoDup_cons. split; [| exact IH].
  intros Hin. rewrite Forall_forall in Hall.
  by apply (string_lt_irrefl a), Hall.
Qed.

Lemma string_lt_antisymm : AntiSymm (=) string_lt.
Proof.
  intros a b Hab Hba. exfalso.
  apply (string_lt_irrefl a). by apply (string_lt_trans a b a).
Qed.

(** The keys [Build] uses depend on the set of the raw keys only. *)
Lemma normalized_keys_ext raw raw' :
  (forall k, k ∈ raw <-> k ∈ raw') -> normalized_keys raw = normalized_keys raw'.
Proof.
  intros Hsame.
  pose proof string_lt_antisymm as Hanti. pose proof string_lt_trans as Htrans.
  apply (Sorted_unique string_lt); [apply normalized_keys_sorted .. |].
  apply NoDup_Permutation; try apply Sorted_string_lt_NoDup, normalized_keys_sorted.
  intros k. by rewrite !normalized_keys_elem_of.
Qed.

(** The number of keys [Build] uses is the number of distinct raw keys. *)
Lemma normalized_keys_distinct raw :
  length (normalized_keys raw) = length (remove_dups raw).
Proof.
  apply Permutation_length, NoDup_Permutation.
  - apply Sorted_string_lt_NoDup, normalized_keys_sorted.
  - apply NoDup_remove_dups.
  - intros k. by rewrite normalized_keys_elem_of, elem_of_remove_dups.
Qed.

(** Property X2: a keys array with an element that is not a string is
    rejected with the TypeError "All keys must be strings"; the values
    are not looked at and the state is left as it was. *)
Theorem Build_rejects_non_string_key w keys_array rest v :
  v ∈ keys_array -> (forall s, v <> JString s) ->
  Build w (JArray keys_array :: rest) =
  (w, throw TypeError "All keys must be strings" JNull).
Proof.
  intros Hin Hv. unfold Build.
  destruct keys_array as [| x l] eqn:E; [by apply elem_of_nil in Hin |].
  rewrite <- E in *. by rewrite (strings_of_None _ _ Hin Hv).
Qed.

Lemma Build_rejects_non_string_key_witness :
  Build initial_world [JArray [JString "a"; JNumber 3; JString "b"]; js_numbers [1; 2; 3]] =
  (initial_world, throw TypeError "All keys must be strings" JNull).
Proof.
  apply (Build_rejects_non_string_key initial_world _ _ (JNumber 3)).
  - right. left.
  - intros s H. discriminate.
Defined.

(** Property X3: with string keys, a values array is accepted only if it
    has as many entries as there are distinct keys, otherwise [Build]
    throws "Values array length must match keys array length"; with the
    right length, an entry that is not a number gives the TypeError "All
    values must be numbers".  Both leave the state as it was. *)
Theorem Build_checks_values w raw values_array rest :
  raw <> [] ->
  (length values_array <> length (remove_dups raw) ->
   Build w (js_strings raw :: JArray values_array :: rest) =
   (w, throw Error "Values array length must match keys array length" JNull)) /\
  (length values_array = length (remove_dups raw) ->
   forall v, v ∈ values_array -> (forall z, v <> JNumber z) ->
   Build w (js_strings raw :: JArray values_array :: rest) =
   (w, throw TypeError "All values must be numbers" JNull)).
Proof.
  intros Hne. unfold Build, js_strings.
  destruct (map JString raw) as [| x l] eqn:E; [by destruct raw |].
  rewrite <- E, strings_of_js_strings, normalized_keys_distinct. clear E x l.
  split.
  - intros Hlen. apply Nat.eqb_neq in Hlen. by rewrite Hlen.
  - intros Hlen v Hin Hv. apply Nat.eqb_eq in Hlen. rewrite Hlen. simpl.
    by rewrite (int32s_of_None _ _ Hin Hv).
Qed.

Lemma Build_checks_values_witness :
  ["b"; "a"; "b"]%string <> [] /\
  (length [JNumber 1; JNumber 2; JNumber 3] <> length (remove_dups ["b"; "a"; "b"]%string) ->
   Build initial_world
     [js_strings ["b"; "a"; "b"]%string; JArray [JNumber 1; JNumber 2; JNumber 3]] =
   (initial_world, throw Error "Values array length must match keys array length" JNull)).
Proof.
  split; [discriminate |].
  exact (proj1 (Build_checks_values initial_world ["b"; "a"; "b"]%string
                  [JNumber 1; JNumber 2; JNumber 3] [] ltac:(discriminate))).
Defined.

(** Property X4: [Build] depends on the set of the keys only: two key
    arrays with the same members, in whatever order and with whatever
    repetitions, give the same result and the same state. *)
Theorem Build_ignores_key_order w raw raw' rest :
  (forall k, k ∈ raw <-> k ∈ raw') ->
  Build w (js_strings raw :: rest) = Build w (js_strings raw' :: rest).
Proof.
  intros Hsame. unfold Build, js_strings.
  destruct raw as [| k0 raw0] eqn:E.
  - destruct raw' as [| k1 raw1]; [done |].
    exfalso. apply (elem_of_nil k1), Hsame. left.
  - destruct raw' as [| k1 raw1] eqn:E'.
    + exfalso. apply (elem_of_nil k0), Hsame. left.
    + rewrite <- E, <- E' in *.
      assert (Hn : normalized_keys raw = normalized_keys raw')
        by (by apply normalized_keys_ext).
      destruct (map JString raw) as [| x l] eqn:Em; [by subst raw |].
      destruct (map JString raw') as [| x' l'] eqn:Em'; [by subst raw' |].
      rewrite <- Em, <- Em', !strings_of_js_strings, Hn. done.
Qed.

Lemma Build_ignores_key_order_witness :
  (forall k, k ∈ ["b"; "a"; "b"]%string <-> k ∈ ["a"; "b"]%string) /\
  Build initial_world [js_strings ["b"; "a"; "b"]%string; js_numbers [7; 8]] =
  Build initial_world [js_strings ["a"; "b"]%string; js_numbers [7; 8]].
Proof.
  assert (H : forall k, k ∈ ["b"; "a"; "b"]%string <-> k ∈ ["a"; "b"]%string).
  { intros k. rewrite !elem_of_cons. pose proof (elem_of_nil k). tauto. }
  split; [exact H |].
  exact (Build_ignores_key_order initial_world _ _ [js_numbers [7; 8]] H).
Defined.




(** Property X16: every export that takes a handle reads it through
    [Uint32Value]: two numbers that differ by a multiple of 2^32 name
    the same handle. *)
Lemma Uint32Value_wrap n k : Uint32Value (n + k * 2 ^ 32) = Uint32Value n.
Proof. unfold Uint32Value, Int.to_uint32. by rewrite Z.mod_add. Qed.

Theorem handle_read_modulo_2_32 w n k rest :
  DestroyDictionary w (JNumber (n + k * 2 ^ 32) :: rest) =
    DestroyDictionary w (JNumber n :: rest) /\
  LoadDictionary w (JNumber (n + k * 2 ^ 32) :: rest) =
    LoadDictionary w (JNumber n :: rest) /\
  SaveDictionary w (JNumber (n + k * 2 ^ 32) :: rest) =
    SaveDictionary w (JNumber n :: rest) /\
  ExactMatchSearch w (JNumber (n + k * 2 ^ 32) :: rest) =
    ExactMatchSearch w (JNumber n :: rest) /\
  CommonPrefixSearch w (JNumber (n + k * 2 ^ 32) :: rest) =
    CommonPrefixSearch w (JNumber n :: rest) /\
  Traverse w (JNumber (n + k * 2 ^ 32) :: rest) =
    Traverse w (JNumber n :: rest) /\
  Size w (JNumber (n + k * 2 ^ 32) :: rest) = Size w (JNumber n :: rest).
Proof.
  unfold DestroyDictionary, LoadDictionary, SaveDictionary, ExactMatchSearch,
    CommonPrefixSearch, Traverse, Size.
  by rewrite !Uint32Value_wrap.
Qed.

(** A negative number and a number beyond 2^32 that name the handle 0
    and the last [uint32_t]. *)
Example handle_wraps_example :
  returned (snd (ExactMatchSearch example_world [JNumber (2 ^ 32); JString "ab"])) =
    JNumber 2 /\
  Uint32Value (-1) = 4294967295 /\
  g_dictionaries (fst (DestroyDictionary example_world [JNumber (- 2 ^ 32)])) = [None].
Proof. by vm_compute. Qed.

(** Property X17: a key or a file path is handed to the core as
    [c_str()]: what follows the first NUL byte is not read, so [s] and
    [s] followed by NUL and more bytes give the same answer. *)
Lemma c_str_append_nul s t :
  c_str (s ++ String Ascii.zero t) = c_str s.
Proof.
  induction s as [| c s IH]; simpl; [done |].
  destruct (byte_val c =? 0); [done | by rewrite IH].
Qed.

Theorem key_read_up_to_nul w n s t rest :
  ExactMatchSearch w (JNumber n :: JString (s ++ String Ascii.zero t) :: rest) =
    ExactMatchSearch w (JNumber n :: JString s :: rest) /\
  CommonPrefixSearch w (JNumber n :: JString (s ++ String Ascii.zero t) :: rest) =
    CommonPrefixSearch w (JNumber n :: JString s :: rest) /\
  LoadDictionary w (JNumber n :: JString (s ++ String Ascii.zero t) :: rest) =
    LoadDictionary w (JNumber n :: JString s :: rest) /\
  SaveDictionary w (JNumber n :: JString (s ++ String Ascii.zero t) :: rest) =
    SaveDictionary w (JNumber n :: JString s :: rest).
Proof.
  unfold ExactMatchSearch, CommonPrefixSearch, LoadDictionary, SaveDictionary.
  by rewrite !c_str_append_nul.
Qed.

(** * Handles and lookups *)

Lemma GetDictionaryFromHandle_iff w h a :
  0 <= h ->
  GetDictionaryFromHandle w h = Some a <->
  g_dictionaries w !! Z.to_nat h = Some (Some a).
Proof.
  intros Hh. split; [by apply GetDictionaryFromHandle_lookup |].
  intros H. rewrite <- (Z2Nat.id h) by done.
  by rewrite GetDictionaryFromHandle_nat, H.
Qed.

Lemma AddDictionary_keeps_live w dict k a :
  g_dictionaries w !! k = Some (Some a) ->
  g_dictionaries (fst (AddDictionary w dict)) !! k = Some (Some a).
Proof.
  intros Hk.
  destruct (AddDictionary_spec w dict) as (i & _ & _ & _ & Hcase & _ & Hother & _).
  rewrite Hother; [done |]. intros ->.
  destruct Hcase as [(Hc & _) | (-> & _)].
  - by rewrite Hc in Hk.
  - by rewrite lookup_ge_None_2 in Hk.
Qed.

Lemma AddDictionary_frame w dict :
  Z.of_nat (length (g_dictionaries w)) < 2 ^ 32 ->
  0 <= snd (AddDictionary w dict) < 2 ^ 32 /\
  GetDictionaryFromHandle w (snd (AddDictionary w dict)) = None /\
  GetDictionaryFromHandle (fst (AddDictionary w dict)) (snd (AddDictionary w dict)) =
    Some dict /\
  g_dictionaries (fst (AddDictionary w dict)) =
    <[ Z.to_nat (snd (AddDictionary w dict)) := Some dict ]>
      (g_dictionaries w ++
       if decide (Z.to_nat (snd (AddDictionary w dict)) = length (g_dictionaries w))
       then [None] else []).
Proof.
  intros Hlen.
  destruct (AddDictionary_spec w dict) as (i & Hh & Hle & _ & Hcase & Hi & _).
  rewrite (Hh Hlen), Nat2Z.id. split; [lia |].
  rewrite !GetDictionaryFromHandle_nat, Hi.
  destruct Hcase as [(Hc & Hg) | (-> & _ & Hg)].
  - rewrite Hc. split; [done |]. split; [done |].
    apply lookup_lt_Some in Hc. rewrite decide_False by lia.
    by rewrite app_nil_r.
  - rewrite lookup_ge_None_2 by lia. split; [done |]. split; [done |].
    rewrite decide_True by done. rewrite Hg.
    rewrite insert_app_r_alt by lia. by rewrite Nat.sub_diag.
Qed.

(** * No object is lost *)

Lemma no_leak_published w a : no_leak w -> no_leak (fst (published w a)).
Proof.
  intros Hnl b Hb. unfold published in *.
  set (w2 := set_heap _ _) in *.
  destruct (AddDictionary_spec w2 (next_addr w))
    as (i & _ & _ & _ & _ & Hi & _ & _ & Hfr & Hnx & _).
  rewrite Hnx in Hb. rewrite Hfr. simpl in *.
  destruct (decide (b = next_addr w)) as [-> | Hne]; [right; eauto |].
  destruct (Hnl b) as [Hf | [k Hk]]; [lia | by left |].
  right. exists k. by apply AddDictionary_keeps_live.
Qed.

Lemma no_leak_discarded w : no_leak w -> no_leak (discarded w).
Proof.
  intros Hnl b Hb. unfold discarded in *. simpl in *.
  destruct (decide (b = next_addr w)) as [-> | Hne].
  - left. apply elem_of_app. right. by left.
  - destruct (Hnl b) as [Hf | Hk]; [lia | | by right].
    left. apply elem_of_app. by left.
Qed.

Lemma no_leak_RemoveDictionary w h : no_leak w -> no_leak (RemoveDictionary w h).
Proof.
  intros Hnl. unfold RemoveDictionary.
  destruct (h <? _); [| done].
  destruct (g_dictionaries w !! Z.to_nat h) as [[d |] |] eqn:E; try done.
  intros b Hb. simpl in *.
  destruct (Hnl b Hb) as [Hf | [k Hk]].
  - left. apply elem_of_app. by left.
  - destruct (decide (k = Z.to_nat h)) as [-> | Hne].
    + left. apply elem_of_app. right. rewrite E in Hk. inversion Hk. by left.
    + right. exists k. by rewrite list_lookup_insert_ne.
Qed.

Lemma no_leak_same w w' :
  next_addr w' = next_addr w -> freed w' = freed w ->
  g_dictionaries w' = g_dictionaries w -> no_leak w -> no_leak w'.
Proof. intros Hn Hf Hg Hnl b Hb. rewrite Hn in Hb. rewrite Hf, Hg. by apply Hnl. Qed.

Lemma CreateDictionary_published w info :
  CreateDictionary w info =
  (fst (published w []), ret (JNumber (snd (published w [])))).
Proof.
  unfold CreateDictionary, published. simpl.
  rewrite insert_insert_eq.
  replace (set_heap _ _) with
    (mkWorld (<[next_addr w:=[]]> (heap w)) (S (next_addr w)) (freed w)
             (g_dictionaries w) (files w) (unwritable w) (callbacks w)) by done.
  by destruct (AddDictionary _ _).
Qed.

Lemma reachable_no_leak w : reachable w -> no_leak w.
Proof.
  induction 1 as [fs ro | w name f info Hr IH Hin].
  - intros a Ha. simpl in Ha. lia.
  - apply elem_of_exports in Hin.
    destruct Hin as [-> | [-> | [-> | [-> | [-> | [-> | [-> | [-> | ->]]]]]]]].
    + rewrite CreateDictionary_published. by apply no_leak_published.
    + unfold DestroyDictionary.
      destruct info as [| [| | | n | | |] rest]; try done.
      by apply no_leak_RemoveDictionary.
    + unfold LoadDictionary.
      destruct info as [| [| | | n | | |] [| [| | | | p | |] rest]]; try done.
      destruct (GetDictionaryFromHandle w (Uint32Value n)); [| done].
      by destruct (darts_open w (c_str p)).
    + unfold SaveDictionary.
      destruct info as [| [| | | n | | |] [| [| | | | p | |] rest]]; try done.
      destruct (GetDictionaryFromHandle w (Uint32Value n)); [| done].
      unfold darts_save. by case_bool_decide.
    + by rewrite ExactMatchSearch_world.
    + by rewrite CommonPrefixSearch_world.
    + unfold Traverse.
      destruct info as [| [| | | n | | |] [| [| | | | p | |] [| [| | | | | | g] rest]]];
        try done.
      by destruct (GetDictionaryFromHandle w (Uint32Value n)).
    + by rewrite Size_world.
    + destruct (Build_cases w info)
        as [(k & msg & ->) | (ka & rest & raw & vs & _ & _ & _ & H)]; [done |].
      destruct (Darts.build _ vs); rewrite H; simpl;
        auto using no_leak_published, no_leak_discarded.
Qed.

(** Property X12: in every state of the process the live [DartsDict]
    objects are exactly those a handle refers to: no object is leaked,
    and no handle dangles. *)
Theorem live_objects_have_handles w :
  reachable w ->
  forall a,
    is_Some (heap w !! a) <->
    exists h, 0 <= h /\ GetDictionaryFromHandle w h = Some a.
Proof.
  intros Hr a.
  pose proof (reachable_world_ok w Hr) as (Hlive & _ & Hnext & Hfreed & _).
  pose proof (reachable_no_leak w Hr) as Hnl.
  split.
  - intros Ha. destruct (Hnl a (Hnext a Ha)) as [Hf | [k Hk]].
    + apply Hfreed in Hf as [Hnone _]. rewrite Hnone in Ha. by destruct Ha.
    + exists (Z.of_nat k). split; [lia |].
      by rewrite GetDictionaryFromHandle_nat, Hk.
  - intros (h & Hh & Hget). apply GetDictionaryFromHandle_lookup in Hget; [| done].
    by eapply Hlive.
Qed.

Lemma live_objects_have_handles_witness :
  reachable example_world /\
  forall a,
    is_Some (heap example_world !! a) <->
    exists h, 0 <= h /\ GetDictionaryFromHandle example_world h = Some a.
Proof.
  split; [exact example_world_reachable |].
  exact (live_objects_have_handles example_world example_world_reachable).
Defined.

(** * Publishing keeps the other dictionaries *)

Lemma published_frame w a :
  world_ok w -> Z.of_nat (length (g_dictionaries w)) < 2 ^ 32 ->
  0 <= snd (published w a) < 2 ^ 32 /\
  GetDictionaryFromHandle w (snd (published w a)) = None /\
  GetDictionaryFromHandle (fst (published w a)) (snd (published w a)) =
    Some (next_addr w) /\
  heap w !! next_addr w = None /\
  heap (fst (published w a)) !! next_addr w = Some a /\
  (forall h0 d0, 0 <= h0 -> GetDictionaryFromHandle w h0 = Some d0 ->
     GetDictionaryFromHandle (fst (published w a)) h0 = Some d0 /\
     heap (fst (published w a)) !! d0 = heap w !! d0) /\
  files (fst (published w a)) = files w /\
  callbacks (fst (published w a)) = callbacks w.
Proof.
  intros Hok Hlen.
  destruct (world_ok_new w Hok) as (_ & Hfresh & Hnew & _).
  destruct (published_lookup w a Hlen) as (Hr & Hget & Hheap).
  unfold published in *. set (w2 := set_heap _ _) in *.
  destruct (AddDictionary_frame w2 (next_addr w) Hlen) as (_ & Hnone & _ & _).
  destruct (AddDictionary_spec w2 (next_addr w))
    as (i & _ & _ & _ & _ & _ & _ & Hh & _ & _ & Hf & _ & Hc).
  split; [done |]. split; [exact Hnone |]. split; [done |].
  split; [done |]. split; [done |].
  split; [| by rewrite Hf, Hc].
  intros h0 d0 Hh0 Hd0. split.
  - apply GetDictionaryFromHandle_iff; [done |].
    apply AddDictionary_keeps_live.
    by apply (GetDictionaryFromHandle_lookup w).
  - rewrite Hh. unfold w2. simpl. rewrite insert_insert_eq.
    rewrite lookup_insert_ne; [done |]. intros <-.
    apply GetDictionaryFromHandle_lookup in Hd0; [| done]. by apply Hnew in Hd0.
Qed.

(** Property X7: a successful [Build] returns a handle that referred to
    nothing before and now refers to a new object; every handle that
    was live refers to the same object, with the same array, as before;
    files and callback log are untouched. *)
Theorem Build_keeps_other_dictionaries w info :
  reachable w -> Z.of_nat (length (g_dictionaries w)) < 2 ^ 32 ->
  pending (snd (Build w info)) = None ->
  exists h,
    returned (snd (Build w info)) = JNumber h /\
    0 <= h < 2 ^ 32 /\
    GetDictionaryFromHandle w h = None /\
    GetDictionaryFromHandle (fst (Build w info)) h = Some (next_addr w) /\
    heap w !! next_addr w = None /\
    (forall h0 d0, 0 <= h0 -> GetDictionaryFromHandle w h0 = Some d0 ->
       GetDictionaryFromHandle (fst (Build w info)) h0 = Some d0 /\
       heap (fst (Build w info)) !! d0 = heap w !! d0) /\
    files (fst (Build w info)) = files w /\
    callbacks (fst (Build w info)) = callbacks w.
Proof.
  intros Hr Hlen Hp. apply reachable_world_ok in Hr.
  destruct (Build_cases w info)
    as [(k & msg & H) | (ka & rest & raw & vs & _ & _ & _ & H)];
    [by rewrite H in Hp |].
  destruct (Darts.build _ vs) as [a | |]; rewrite H in *; try done. simpl.
  destruct (published_frame w a Hr Hlen) as (H1 & H2 & H3 & H4 & _ & H5 & H6 & H7).
  exists (snd (published w a)). done.
Qed.

Lemma Build_keeps_other_dictionaries_witness :
  reachable example_world /\
  Z.of_nat (length (g_dictionaries example_world)) < 2 ^ 32 /\
  pending (snd (Build example_world [js_strings ["x"; "y"]%string])) = None /\
  exists h,
    returned (snd (Build example_world [js_strings ["x"; "y"]%string])) = JNumber h /\
    0 <= h < 2 ^ 32 /\
    GetDictionaryFromHandle example_world h = None /\
    GetDictionaryFromHandle
      (fst (Build example_world [js_strings ["x"; "y"]%string])) h =
      Some (next_addr example_world) /\
    heap example_world !! next_addr example_world = None /\
    (forall h0 d0, 0 <= h0 -> GetDictionaryFromHandle example_world h0 = Some d0 ->
       GetDictionaryFromHandle
         (fst (Build example_world [js_strings ["x"; "y"]%string])) h0 = Some d0 /\
       heap (fst (Build example_world [js_strings ["x"; "y"]%string])) !! d0 =
         heap example_world !! d0) /\
    files (fst (Build example_world [js_strings ["x"; "y"]%string])) =
      files example_world /\
    callbacks (fst (Build example_world [js_strings ["x"; "y"]%string])) =
      callbacks example_world.
Proof.
  assert (Hlen : Z.of_nat (length (g_dictionaries example_world)) < 2 ^ 32)
    by (vm_compute; reflexivity).
  assert (Hp : pending (snd (Build example_world [js_strings ["x"; "y"]%string])) = None)
    by (vm_compute; reflexivity).
  split; [exact example_world_reachable |]. split; [exact Hlen |].
  split; [exact Hp |].
  exact (Build_keeps_other_dictionaries example_world _ example_world_reachable Hlen Hp).
Defined.

(** Property X9: [CreateDictionary] never fails, whatever its arguments:
    it returns a handle that referred to nothing before and now refers
    to a new object, and every handle that was live refers to the same
    object, with the same array, as before. *)
Theorem CreateDictionary_fresh_handle w info :
  reachable w -> Z.of_nat (length (g_dictionaries w)) < 2 ^ 32 ->
  exists h,
    snd (CreateDictionary w info) = ret (JNumber h) /\
    0 <= h < 2 ^ 32 /\
    GetDictionaryFromHandle w h = None /\
    GetDictionaryFromHandle (fst (CreateDictionary w info)) h = Some (next_addr w) /\
    heap w !! next_addr w = None /\
    (forall h0 d0, 0 <= h0 -> GetDictionaryFromHandle w h0 = Some d0 ->
       GetDictionaryFromHandle (fst (CreateDictionary w info)) h0 = Some d0 /\
       heap (fst (CreateDictionary w info)) !! d0 = heap w !! d0).
Proof.
  intros Hr Hlen. apply reachable_world_ok in Hr.
  rewrite CreateDictionary_published. simpl.
  destruct (published_frame w [] Hr Hlen) as (H1 & H2 & H3 & H4 & _ & H5 & _).
  exists (snd (published w [])). done.
Qed.

Lemma CreateDictionary_fresh_handle_witness :
  reachable example_world /\
  Z.of_nat (length (g_dictionaries example_world)) < 2 ^ 32 /\
  exists h,
    snd (CreateDictionary example_world []) = ret (JNumber h) /\
    0 <= h < 2 ^ 32 /\
    GetDictionaryFromHandle example_world h = None /\
    GetDictionaryFromHandle (fst (CreateDictionary example_world [])) h =
      Some (next_addr example_world) /\
    heap example_world !! next_addr example_world = None /\
    (forall h0 d0, 0 <= h0 -> GetDictionaryFromHandle example_world h0 = Some d0 ->
       GetDictionaryFromHandle (fst (CreateDictionary example_world [])) h0 = Some d0 /\
       heap (fst (CreateDictionary example_world [])) !! d0 = heap example_world !! d0).
Proof.
  assert (Hlen : Z.of_nat (length (g_dictionaries example_world)) < 2 ^ 32)
    by (vm_compute; reflexivity).
  split; [exact example_world_reachable |]. split; [exact Hlen |].
  exact (CreateDictionary_fresh_handle example_world [] example_world_reachable Hlen).
Defined.

(** Property X11: [DestroyDictionary] with a number never fails and
    touches the addressed handle only: every other live handle refers
    to the same object, with the same array, as before. *)
Theorem DestroyDictionary_keeps_others w n rest :
  reachable w ->
  snd (DestroyDictionary w (JNumber n :: rest)) = ret JUndefined /\
  files (fst (DestroyDictionary w (JNumber n :: rest))) = files w /\
  forall h0 d0, 0 <= h0 -> h0 <> Uint32Value n ->
    GetDictionaryFromHandle w h0 = Some d0 ->
    GetDictionaryFromHandle (fst (DestroyDictionary w (JNumber n :: rest))) h0 = Some d0 /\
    heap (fst (DestroyDictionary w (JNumber n :: rest))) !! d0 = heap w !! d0.
Proof.
  intros Hr. apply reachable_world_ok in Hr. simpl.
  pose proof (Uint32Value_nonneg n) as [Hn _].
  destruct (GetDictionaryFromHandle w (Uint32Value n)) as [a |] eqn:E.
  - rewrite (RemoveDictionary_live _ _ _ Hn E). simpl.
    split; [done |]. split; [done |].
    intros h0 d0 Hh0 Hne Hd0.
    apply GetDictionaryFromHandle_lookup in E; [| done].
    pose proof (GetDictionaryFromHandle_lookup _ _ _ Hh0 Hd0) as Hd0'.
    split.
    + apply GetDictionaryFromHandle_iff; [done |]. simpl.
      rewrite list_lookup_insert_ne; [done | lia].
    + rewrite lookup_delete_ne; [done |]. intros ->.
      destruct Hr as (_ & Hinj & _). pose proof (Hinj _ _ _ E Hd0'). lia.
  - rewrite RemoveDictionary_dead by done. done.
Qed.

Lemma DestroyDictionary_keeps_others_witness :
  let w := fst (CreateDictionary example_world []) in
  reachable w /\
  snd (DestroyDictionary w [JNumber 1]) = ret JUndefined /\
  files (fst (DestroyDictionary w [JNumber 1])) = files w /\
  forall h0 d0, 0 <= h0 -> h0 <> Uint32Value 1 ->
    GetDictionaryFromHandle w h0 = Some d0 ->
    GetDictionaryFromHandle (fst (DestroyDictionary w [JNumber 1])) h0 = Some d0 /\
    heap (fst (DestroyDictionary w [JNumber 1])) !! d0 = heap w !! d0.
Proof.
  intros w.
  assert (Hr : reachable w).
  { apply (reachable_call _ "createDictionary" CreateDictionary);
      [exact example_world_reachable |].
    unfold exports. left. }
  split; [exact Hr |].
  exact (DestroyDictionary_keeps_others w 1 [] Hr).
Defined.

(** Property X10: destroying the handle that [CreateDictionary] has just
    returned restores the live objects and what every handle refers
    to. *)
Theorem create_then_destroy_restores w info :
  reachable w -> Z.of_nat (length (g_dictionaries w)) < 2 ^ 32 ->
  exists h,
    returned (snd (CreateDictionary w info)) = JNumber h /\
    let w2 := fst (DestroyDictionary (fst (CreateDictionary w info)) [JNumber h]) in
    (heap w2 = heap w /\
     files w2 = files w /\
     forall h0, 0 <= h0 ->
       GetDictionaryFromHandle w2 h0 = GetDictionaryFromHandle w h0).
Proof.
  intros Hr Hlen. apply reachable_world_ok in Hr.
  rewrite CreateDictionary_published. simpl.
  destruct (published_frame w [] Hr Hlen)
    as ((Hh0 & Hh1) & Hnone & Hget & Hfresh & _ & Hothers & Hfiles & _).
  set (h := snd (published w [])) in *. set (w1 := fst (published w [])) in *.
  exists h. split; [done |].
  assert (HU : Uint32Value h = h) by (by apply to_uint32_small).
  rewrite HU, (RemoveDictionary_live _ _ _ Hh0 Hget). simpl.
  split.
  { unfold w1, published.
    destruct (AddDictionary_spec (set_heap (fst (new_DartsDict w))
                (<[next_addr w:=[]]> (heap (fst (new_DartsDict w))))) (next_addr w))
      as (i & _ & _ & _ & _ & _ & _ & Hheap & _).
    rewrite Hheap. simpl. rewrite insert_insert_eq, delete_insert_eq.
    by apply delete_id. }
  split; [done |].
  intros h0 Hh0'.
  destruct (decide (h0 = h)) as [-> | Hne].
  - rewrite Hnone. unfold GetDictionaryFromHandle. simpl.
    destruct (_ <? _) eqn:E; [| done].
    rewrite list_lookup_insert_eq; [done |].
    apply Z.ltb_lt in E. rewrite length_insert in E. lia.
  - destruct (GetDictionaryFromHandle w h0) as [d0 |] eqn:E0.
    + apply GetDictionaryFromHandle_iff; [done |]. simpl.
      rewrite list_lookup_insert_ne by lia.
      apply (GetDictionaryFromHandle_iff w1); [done |]. by apply Hothers.
    + match goal with |- ?x = None => destruct x as [d1 |] eqn:E1 end; [| done].
      exfalso.
      apply GetDictionaryFromHandle_iff in E1; [| done]. simpl in E1.
      rewrite list_lookup_insert_ne in E1 by lia.
      unfold w1, published in E1.
      destruct (AddDictionary_spec (set_heap (fst (new_DartsDict w))
                  (<[next_addr w:=[]]> (heap (fst (new_DartsDict w))))) (next_addr w))
        as (i & Hhi & _ & _ & _ & _ & Hother & _).
      assert (Hi : h = Z.of_nat i) by (exact (Hhi Hlen)).
      rewrite Hother in E1 by lia. simpl in E1.
      assert (GetDictionaryFromHandle w h0 = Some d1)
        by (by apply GetDictionaryFromHandle_iff).
      congruence.
Qed.

Lemma create_then_destroy_restores_witness :
  reachable example_world /\
  Z.of_nat (length (g_dictionaries example_world)) < 2 ^ 32 /\
  exists h,
    returned (snd (CreateDictionary example_world [])) = JNumber h /\
    let w2 := fst (DestroyDictionary (fst (CreateDictionary example_world []))
                                     [JNumber h]) in
    (heap w2 = heap example_world /\
     files w2 = files example_world /\
     forall h0, 0 <= h0 ->
       GetDictionaryFromHandle w2 h0 = GetDictionaryFromHandle example_world h0).
Proof.
  assert (Hlen : Z.of_nat (length (g_dictionaries example_world)) < 2 ^ 32)
    by (vm_compute; reflexivity).
  split; [exact example_world_reachable |]. split; [exact Hlen |].
  exact (create_then_destroy_restores example_world [] example_world_reachable Hlen).
Defined.

(** * A handle keeps its instance *)

Lemma RemoveDictionary_keeps_or_frees w h h0 a :
  0 <= h0 -> GetDictionaryFromHandle w h0 = Some a ->
  GetDictionaryFromHandle (RemoveDictionary w h) h0 = Some a \/
  a ∈ freed (RemoveDictionary w h).
Proof.
  intros Hh0 Hget. unfold RemoveDictionary.
  destruct (h <? _); [| by left].
  destruct (g_dictionaries w !! Z.to_nat h) as [[d |] |] eqn:E; try (by left).
  apply GetDictionaryFromHandle_lookup in Hget; [| done].
  destruct (decide (Z.to_nat h0 = Z.to_nat h)) as [Heq | Hne].
  - right. simpl. rewrite Heq, E in Hget. inversion Hget.
    apply elem_of_app. right. by left.
  - left. apply GetDictionaryFromHandle_iff; [done |]. simpl.
    by rewrite list_lookup_insert_ne.
Qed.

Lemma export_keeps_or_frees name f w info h0 a :
  (name, f) ∈ exports -> 0 <= h0 ->
  GetDictionaryFromHandle w h0 = Some a ->
  GetDictionaryFromHandle (fst (f w info)) h0 = Some a \/ a ∈ freed (fst (f w info)).
Proof.
  intros Hin Hh0 Hget.
  assert (Hpub : forall arr, GetDictionaryFromHandle (fst (published w arr)) h0 = Some a).
  { intros arr. apply GetDictionaryFromHandle_iff; [done |].
    unfold published. apply AddDictionary_keeps_live. simpl.
    by apply (GetDictionaryFromHandle_lookup w). }
  apply elem_of_exports in Hin.
  destruct Hin as [-> | [-> | [-> | [-> | [-> | [-> | [-> | [-> | ->]]]]]]]].
  - left. rewrite CreateDictionary_published. apply Hpub.
  - unfold DestroyDictionary.
    destruct info as [| [| | | n | | |] rest]; try (by left).
    by apply RemoveDictionary_keeps_or_frees.
  - left. unfold LoadDictionary.
    destruct info as [| [| | | n | | |] [| [| | | | p | |] rest]]; try done.
    destruct (GetDictionaryFromHandle w (Uint32Value n)); [| done].
    by destruct (darts_open w (c_str p)).
  - left. unfold SaveDictionary.
    destruct info as [| [| | | n | | |] [| [| | | | p | |] rest]]; try done.
    destruct (GetDictionaryFromHandle w (Uint32Value n)); [| done].
    unfold darts_save. by case_bool_decide.
  - left. by rewrite ExactMatchSearch_world.
  - left. by rewrite CommonPrefixSearch_world.
  - left. unfold Traverse.
    destruct info as [| [| | | n | | |] [| [| | | | p | |] [| [| | | | | | g] rest]]];
      try done.
    by destruct (GetDictionaryFromHandle w (Uint32Value n)).
  - left. by rewrite Size_world.
  - left.
    destruct (Build_cases w info)
      as [(k & msg & ->) | (ka & rest & raw & vs & _ & _ & _ & H)]; [done |].
    destruct (Darts.build _ vs); rewrite H; simpl; [apply Hpub | done | done].
Qed.

(** Property X13: whatever calls follow, a live handle refers to the
    same instance until that instance is destroyed; from then on no
    handle refers to that instance. *)
Theorem handle_stable_until_destroyed w w' h a :
  reachable w -> later any_export w w' -> 0 <= h ->
  GetDictionaryFromHandle w h = Some a ->
  (GetDictionaryFromHandle w' h = Some a /\ (a ∉ freed w')) \/
  (a ∈ freed w' /\ forall h0, GetDictionaryFromHandle w' h0 <> Some a).
Proof.
  intros Hr Hlater Hh Hget.
  assert (Hok : world_ok w') by (by eapply reachable_world_ok, later_reachable).
  assert (H : GetDictionaryFromHandle w' h = Some a \/ a ∈ freed w').
  { clear Hok. induction Hlater as [| w' name f info _ IH Hin _]; [by left |].
    destruct IH as [IH | IH].
    - by apply (export_keeps_or_frees name).
    - right. by apply (export_freed name). }
  destruct (decide (a ∈ freed w')) as [Hf | Hnf].
  - right. split; [done |]. intros h0. by apply freed_not_in_table.
  - left. destruct H as [H | H]; done.
Qed.

Lemma handle_stable_until_destroyed_witness :
  let w' := fst (Build (fst (CreateDictionary example_world []))
                       [js_strings ["k"]%string]) in
  reachable example_world /\ later any_export example_world w' /\ 0 <= 0 /\
  GetDictionaryFromHandle example_world 0 = Some O /\
  ((GetDictionaryFromHandle w' 0 = Some O /\ (O ∉ freed w')) \/
   (O ∈ freed w' /\ forall h0, GetDictionaryFromHandle w' h0 <> Some O)).
Proof.
  intros w'.
  assert (Hl : later any_export example_world w').
  { apply (later_call _ _ _ "build" Build).
    - apply (later_call _ _ _ "createDictionary" CreateDictionary);
        [apply later_now | unfold exports; left | done].
    - unfold exports. repeat (first [left | right]).
    - done. }
  assert (Hg : GetDictionaryFromHandle example_world 0 = Some O)
    by (vm_compute; reflexivity).
  split; [exact example_world_reachable |]. split; [exact Hl |].
  split; [lia |]. split; [exact Hg |].
  exact (handle_stable_until_destroyed example_world w' 0 O
           example_world_reachable Hl ltac:(lia) Hg).
Defined.

(** * The loop of [Traverse] *)




(** * Keys given in order, values modulo 2^32 *)

(** Property X5: keys that are already strictly ascending pass the
    sort and the removal of duplicates unchanged. *)
Theorem normalized_keys_of_sorted raw :
  Sorted string_lt raw -> normalized_keys raw = raw.
Proof.
  intros Hs. pose proof string_lt_trans as Htrans.
  pose proof string_lt_antisymm as Hanti.
  apply (Sorted_unique string_lt); [apply normalized_keys_sorted | done |].
  apply NoDup_Permutation; [| by apply Sorted_string_lt_NoDup |].
  - apply Sorted_string_lt_NoDup, normalized_keys_sorted.
  - intros k. by rewrite normalized_keys_elem_of.
Qed.

Lemma normalized_keys_of_sorted_witness :
  Sorted string_lt ["a"; "ab"; "b"]%string /\
  normalized_keys ["a"; "ab"; "b"]%string = ["a"; "ab"; "b"]%string.
Proof.
  assert (Hs : Sorted string_lt ["a"; "ab"; "b"]%string)
    by (repeat constructor).
  split; [exact Hs |].
  exact (normalized_keys_of_sorted _ Hs).
Defined.

Lemma int32s_of_js_numbers vs : int32s_of (map JNumber vs) = Some (map Int32Value vs).
Proof. induction vs as [| v vs IH]; simpl; [done | by rewrite IH]. Qed.

(** Property X6: [Build] reads the values through [Int32Value]: two
    values arrays that agree as 32-bit integers give the same result. *)
Theorem Build_reads_values_as_int32 w keys vs vs' rest :
  map Int32Value vs = map Int32Value vs' ->
  Build w (keys :: js_numbers vs :: rest) = Build w (keys :: js_numbers vs' :: rest).
Proof.
  intros Heq. unfold Build, js_numbers.
  destruct keys as [| | | | | keys_array |]; try done.
  destruct keys_array as [| k0 ks]; [done |].
  destruct (strings_of (k0 :: ks)) as [raw |]; [| done].
  assert (Hlen : length (map JNumber vs) = length (map JNumber vs')).
  { rewrite !length_map. rewrite <- (length_map Int32Value vs), Heq.
    by rewrite length_map. }
  by rewrite !int32s_of_js_numbers, Hlen, Heq.
Qed.

Lemma Build_reads_values_as_int32_witness :
  map Int32Value [5; -1] = map Int32Value [5 + 2 ^ 32; 2 ^ 32 - 1] /\
  Build initial_world [js_strings ["a"; "b"]%string; js_numbers [5; -1]] =
  Build initial_world [js_strings ["a"; "b"]%string; js_numbers [5 + 2 ^ 32; 2 ^ 32 - 1]].
Proof.
  assert (H : map Int32Value [5; -1] = map Int32Value [5 + 2 ^ 32; 2 ^ 32 - 1])
    by (vm_compute; reflexivity).
  split; [exact H |].
  exact (Build_reads_values_as_int32 initial_world _ _ _ [] H).
Defined.

(** * The size of the handle table *)

Lemma AddDictionary_length w dict :
  (length (g_dictionaries w) <= length (g_dictionaries (fst (AddDictionary w dict)))
   <= S (length (g_dictionaries w)))%nat.
Proof.
  unfold AddDictionary. destruct (find_empty_slot _ _); simpl.
  - rewrite length_insert. lia.
  - rewrite length_app. simpl. lia.
Qed.

Lemma RemoveDictionary_length w h :
  length (g_dictionaries (RemoveDictionary w h)) = length (g_dictionaries w).
Proof.
  unfold RemoveDictionary. destruct (h <? _); [| done].
  destruct (g_dictionaries w !! Z.to_nat h) as [[d |] |]; try done.
  simpl. by rewrite length_insert.
Qed.

Lemma export_table_size name f w info :
  (name, f) ∈ exports ->
  (length (g_dictionaries w) <= length (g_dictionaries (fst (f w info))))%nat /\
  (length (g_dictionaries (fst (f w info))) + next_addr w
   <= length (g_dictionaries w) + next_addr (fst (f w info)))%nat.
Proof.
  intros Hin.
  assert (Hpub : forall arr,
    (length (g_dictionaries w) <= length (g_dictionaries (fst (published w arr))))%nat /\
    (length (g_dictionaries (fst (published w arr))) + next_addr w
     <= length (g_dictionaries w) + next_addr (fst (published w arr)))%nat).
  { intros arr. unfold published.
    set (w2 := set_heap _ _).
    pose proof (AddDictionary_length w2 (next_addr w)) as Hl.
    destruct (AddDictionary_spec w2 (next_addr w))
      as (i & _ & _ & _ & _ & _ & _ & _ & _ & Hnx & _).
    rewrite Hnx. simpl in *. lia. }
  apply elem_of_exports in Hin.
  destruct Hin as [-> | [-> | [-> | [-> | [-> | [-> | [-> | [-> | ->]]]]]]]].
  - rewrite CreateDictionary_published. apply Hpub.
  - unfold DestroyDictionary.
    destruct info as [| [| | | n | | |] rest]; try (simpl; lia).
    simpl. rewrite RemoveDictionary_length.
    assert (next_addr (RemoveDictionary w (Uint32Value n)) = next_addr w).
    { unfold RemoveDictionary. destruct (_ <? _); [| done].
      by destruct (g_dictionaries w !! _) as [[d |] |]. }
    lia.
  - unfold LoadDictionary.
    destruct info as [| [| | | n | | |] [| [| | | | p | |] rest]]; try (simpl; lia).
    destruct (GetDictionaryFromHandle w (Uint32Value n)); [| simpl; lia].
    destruct (darts_open w (c_str p)); simpl; lia.
  - unfold SaveDictionary.
    destruct info as [| [| | | n | | |] [| [| | | | p | |] rest]]; try (simpl; lia).
    destruct (GetDictionaryFromHandle w (Uint32Value n)); [| simpl; lia].
    unfold darts_save. case_bool_decide; simpl; lia.
  - rewrite ExactMatchSearch_world. lia.
  - rewrite CommonPrefixSearch_world. lia.
  - unfold Traverse.
    destruct info as [| [| | | n | | |] [| [| | | | p | |] [| [| | | | | | g] rest]]];
      try (simpl; lia).
    destruct (GetDictionaryFromHandle w (Uint32Value n)); simpl; lia.
  - rewrite Size_world. lia.
  - destruct (Build_cases w info)
      as [(k & msg & ->) | (ka & rest & raw & vs & _ & _ & _ & H)]; [simpl; lia |].
    destruct (Darts.build _ vs); rewrite H; simpl; try lia. apply Hpub.
Qed.

(** Property X14: the handle table has at most as many slots as
    objects were made, and no call ever shortens it. *)
Theorem handle_table_size w :
  reachable w ->
  (length (g_dictionaries w) <= next_addr w)%nat /\
  forall w', later any_export w w' ->
    (length (g_dictionaries w) <= length (g_dictionaries w'))%nat.
Proof.
  intros Hr. split.
  - induction Hr as [fs ro | w name f info Hr IH Hin]; [simpl; lia |].
    pose proof (export_table_size name f w info Hin). lia.
  - intros w' Hl. induction Hl as [| w' name f info _ IH Hin _]; [lia |].
    pose proof (export_table_size name f w' info Hin). lia.
Qed.

Lemma handle_table_size_witness :
  reachable example_world /\
  (length (g_dictionaries example_world) <= next_addr example_world)%nat /\
  forall w', later any_export example_world w' ->
    (length (g_dictionaries example_world) <= length (g_dictionaries w'))%nat.
Proof.
  split; [exact example_world_reachable |].
  exact (handle_table_size example_world example_world_reachable).
Defined.

(** Property X8: destroying the handle a successful [Build] has just
    returned deletes exactly the object made by that build: the live
    objects are those of before, and every handle that was live still
    refers to its object. *)
Theorem build_then_destroy_releases w info :
  reachable w -> Z.of_nat (length (g_dictionaries w)) < 2 ^ 32 ->
  pending (snd (Build w info)) = None ->
  exists h,
    returned (snd (Build w info)) = JNumber h /\
    let w2 := fst (DestroyDictionary (fst (Build w info)) [JNumber h]) in
    (heap w2 = heap w /\
     freed w2 = freed w ++ [next_addr w] /\
     forall h0 d0, 0 <= h0 -> GetDictionaryFromHandle w h0 = Some d0 ->
       GetDictionaryFromHandle w2 h0 = Some d0).
Proof.
  intros Hr Hlen Hp. apply reachable_world_ok in Hr.
  destruct (Build_cases w info)
    as [(k & msg & H) | (ka & rest & raw & vs & _ & _ & _ & H)];
    [by rewrite H in Hp |].
  destruct (Darts.build _ vs) as [a | |]; rewrite H in *; try done. simpl.
  destruct (published_frame w a Hr Hlen)
    as ((Hh0 & Hh1) & Hnone & Hget & Hfresh & _ & Hothers & _).
  set (h := snd (published w a)) in *. set (w1 := fst (published w a)) in *.
  exists h. split; [done |].
  assert (HU : Uint32Value h = h) by (by apply to_uint32_small).
  rewrite HU, (RemoveDictionary_live _ _ _ Hh0 Hget). simpl.
  assert (Hw1 : heap w1 = <[next_addr w := a]> (heap w) /\ freed w1 = freed w).
  { unfold w1, published.
    destruct (AddDictionary_spec (set_heap (fst (new_DartsDict w))
                (<[next_addr w:=a]> (heap (fst (new_DartsDict w))))) (next_addr w))
      as (i & _ & _ & _ & _ & _ & _ & Hheap & Hfr & _).
    rewrite Hheap, Hfr. simpl. by rewrite insert_insert_eq. }
  destruct Hw1 as [Hheap Hfr]. rewrite Hheap, Hfr.
  split; [rewrite delete_insert_eq; by apply delete_id |].
  split; [done |].
  intros h0 d0 Hh0' Hd0.
  apply GetDictionaryFromHandle_iff; [done |]. simpl.
  assert (h0 <> h) by (intros ->; congruence).
  rewrite list_lookup_insert_ne by lia.
  apply (GetDictionaryFromHandle_iff w1); [done |]. by apply Hothers.
Qed.

Lemma build_then_destroy_releases_witness :
  reachable example_world /\
  Z.of_nat (length (g_dictionaries example_world)) < 2 ^ 32 /\
  pending (snd (Build example_world [js_strings ["x"; "y"]%string])) = None /\
  exists h,
    returned (snd (Build example_world [js_strings ["x"; "y"]%string])) = JNumber h /\
    let w2 := fst (DestroyDictionary
                     (fst (Build example_world [js_strings ["x"; "y"]%string]))
                     [JNumber h]) in
    (heap w2 = heap example_world /\
     freed w2 = freed example_world ++ [next_addr example_world] /\
     forall h0 d0, 0 <= h0 -> GetDictionaryFromHandle example_world h0 = Some d0 ->
       GetDictionaryFromHandle w2 h0 = Some d0).
Proof.
  assert (Hlen : Z.of_nat (length (g_dictionaries example_world)) < 2 ^ 32)
    by (vm_compute; reflexivity).
  assert (Hp : pending (snd (Build example_world [js_strings ["x"; "y"]%string])) = None)
    by (vm_compute; reflexivity).
  split; [exact example_world_reachable |]. split; [exact Hlen |].
  split; [exact Hp |].
  exact (build_then_destroy_releases example_world _ example_world_reachable Hlen Hp).
Defined.
